(** * TimerQueue (statefultask): a shallow embedding and its properties

    The class [statefultask::TimerQueue] of [TimerQueue.h] keeps the running
    timers of one interval in a [std::deque<Timer*>] together with a 64-bit
    counter [m_sequence_offset].  A cancelled timer is overwritten with
    [nullptr]; leading null entries are removed by [cancel] and [pop].

    The embedding follows the header member by member:
    - [uint64_t] and [size_t] values are integers in [Z], every wrap-around
      written with [wrap64];
    - a [Timer*] is an address in [Z], [nullptr] being address 0;
    - the deque is a [list] of pointers, front first;
    - a member function takes the object state and returns the new one;
    - a failed [ASSERT] is the outcome [AssertionFailed]. *)

From stdpp Require Import base numbers list.

Local Open Scope Z_scope.

(** ** Machine integers and pointers *)

Definition wrap64 (z : Z) : Z := z mod 2 ^ 64.
Arguments wrap64 : simpl never.

Definition Timer_ptr : Type := Z.
Definition nullptr : Timer_ptr := 0.
Definition is_null (p : Timer_ptr) : bool := p =? nullptr.

(** ** Assertions

    A member function either returns or stops at a failed assertion. *)

Inductive outcome (A : Type) : Type :=
  | Ok (a : A)
  | AssertionFailed.
Arguments Ok {A} a.
Arguments AssertionFailed {A}.

Definition bind {A B : Type} (c : outcome A) (k : A -> outcome B) : outcome B :=
  match c with
  | Ok a => k a
  | AssertionFailed => AssertionFailed
  end.

Notation "'do' x <- c ; k" := (bind c (fun x => k))
  (at level 10, x binder, c at level 100, k at level 200).

(** Modelled from the spec: the macro [ASSERT] is defined in [debug.h], which
    is not among the sources.  The specification says that a violated
    precondition "fails loudly (assertion)" and is fatal, so a false
    condition ends the computation with [AssertionFailed]. *)
Definition ASSERT (cond : bool) : outcome unit :=
  if cond then Ok tt else AssertionFailed.

(** ** The class *)

Record TimerQueue : Type := mkTimerQueue {
  m_sequence_offset : Z;
  m_running_timers : list Timer_ptr
}.

(** [TimerQueue() : m_sequence_offset(0) { }] *)
Definition TimerQueue_ctor : TimerQueue := mkTimerQueue 0 [].

Definition size (q : TimerQueue) : Z := Z.of_nat (length (m_running_timers q)).

Definition empty (q : TimerQueue) : bool :=
  match m_running_timers q with [] => true | _ :: _ => false end.

Definition get_sequence_offset (q : TimerQueue) : Z := m_sequence_offset q.

(** [m_running_timers.front()], where there is one. *)
Definition front (q : TimerQueue) : option Timer_ptr := head (m_running_timers q).

(** The number of null entries of a deque, as a mathematical integer. *)
Fixpoint count_null (l : list Timer_ptr) : Z :=
  match l with
  | [] => 0
  | timer :: l' => (if is_null timer then 1 else 0) + count_null l'
  end.

(** [int]: 32 bits, two's complement. *)
Definition wrap_int (z : Z) : Z := (z + 2 ^ 31) mod 2 ^ 32 - 2 ^ 31.
Arguments wrap_int : simpl never.

(** [cancelled_in_queue] counts in an [int]:
    [int sz = 0; for (auto timer : m_running_timers) sz += timer ? 0 : 1; return sz;]
    [cancelled_loop sz l] is the loop over the entries [l] that are still
    to be visited.  An [int] that overflows has no defined value in C++;
    here it wraps around, and the statements about [cancelled_in_queue]
    keep the queue below [2 ^ 31] entries, where the sum does not
    overflow. *)
Fixpoint cancelled_loop (sz : Z) (l : list Timer_ptr) : Z :=
  match l with
  | [] => sz
  | timer :: l' => cancelled_loop (wrap_int (sz + (if is_null timer then 1 else 0))) l'
  end.

Definition cancelled_in_queue (q : TimerQueue) : Z :=
  cancelled_loop 0 (m_running_timers q).

(** [push]: [emplace_back], then [size() - 1 + m_sequence_offset] in
    [uint64_t] arithmetic. *)
Definition push (timer : Timer_ptr) (q : TimerQueue) : Z * TimerQueue :=
  let q' := mkTimerQueue (m_sequence_offset q) (m_running_timers q ++ [timer]) in
  (wrap64 (size q' - 1 + m_sequence_offset q'), q').

Definition is_current (sequence : Z) (q : TimerQueue) : bool :=
  sequence =? m_sequence_offset q.

(** The loop of [cancel] after its first, unconditional round:
    [while (!empty() && front() == nullptr) { ++m_sequence_offset; pop_front(); }] *)
Fixpoint pop_front_while_null (off : Z) (l : list Timer_ptr) : Z * list Timer_ptr :=
  match l with
  | p :: l' => if is_null p then pop_front_while_null (wrap64 (off + 1)) l' else (off, l)
  | [] => (off, l)
  end.

(** [cancel].  The index is computed in [size_t] (64 bits wide, like
    [uint64_t]), so [0 <= i] always holds and a sequence number below the
    offset wraps to a huge index. *)
Definition cancel (sequence : Z) (q : TimerQueue) : outcome (bool * TimerQueue) :=
  let i := wrap64 (sequence - m_sequence_offset q) in
  do _ <- ASSERT ((0 <=? i) && (i <? size q));
  do _ <- ASSERT (negb (is_null (default nullptr (m_running_timers q !! Z.to_nat i))));
  let l := <[Z.to_nat i := nullptr]> (m_running_timers q) in
  let is_cur := i =? 0 in
  if is_cur then
    (* do { ++m_sequence_offset; pop_front(); } while (...) *)
    let '(off, l') := pop_front_while_null (wrap64 (m_sequence_offset q + 1)) (tail l) in
    Ok (is_cur, mkTimerQueue off l')
  else
    Ok (is_cur, mkTimerQueue (m_sequence_offset q) l).

(** The loop of [pop] after its first round walks an iterator [b] instead of
    popping: [while (b != e && *b == nullptr) { ++m_sequence_offset; ++b; }]
    Here [b] is an index and [rest] the range from [b] to [e]. *)
Fixpoint pop_scan (off : Z) (b : nat) (rest : list Timer_ptr) : Z * nat :=
  match rest with
  | p :: rest' => if is_null p then pop_scan (wrap64 (off + 1)) (S b) rest' else (off, b)
  | [] => (off, b)
  end.

Definition pop (q : TimerQueue) : outcome (Timer_ptr * TimerQueue) :=
  let l := m_running_timers q in
  do _ <- ASSERT (negb (empty q));
  let timer := default nullptr (l !! 0%nat) in
  (* do { ++m_sequence_offset; ++b; } while (...) *)
  let '(off, b) := pop_scan (wrap64 (m_sequence_offset q + 1)) 1 (drop 1 l) in
  (* erase(begin(), b) *)
  Ok (timer, mkTimerQueue off (drop b l)).

(** ** Sequences of calls *)

Inductive op : Type :=
  | Push (timer : Timer_ptr)
  | Cancel (sequence : Z)
  | Pop.

Inductive ret : Type :=
  | RetSeq (sequence : Z)
  | RetBool (b : bool)
  | RetTimer (timer : Timer_ptr).

Definition step (o : op) (q : TimerQueue) : outcome (ret * TimerQueue) :=
  match o with
  | Push timer => let '(s, q') := push timer q in Ok (RetSeq s, q')
  | Cancel sequence => do '(b, q') <- cancel sequence q; Ok (RetBool b, q')
  | Pop => do '(t, q') <- pop q; Ok (RetTimer t, q')
  end.

(** Runs the calls in order; the results are listed in call order. *)
Fixpoint run (ops : list op) (q : TimerQueue) : outcome (list ret * TimerQueue) :=
  match ops with
  | [] => Ok ([], q)
  | o :: ops' =>
      do '(r, q') <- step o q;
      do '(rs, q'') <- run ops' q';
      Ok (r :: rs, q'')
  end.

(** Counters and projections over a call sequence and its results. *)

Definition is_push (o : op) : bool := match o with Push _ => true | _ => false end.
Definition is_cancel (o : op) : bool := match o with Cancel _ => true | _ => false end.
Definition is_pop (o : op) : bool := match o with Pop => true | _ => false end.

Fixpoint count_ops (f : op -> bool) (ops : list op) : Z :=
  match ops with
  | [] => 0
  | o :: ops' => (if f o then 1 else 0) + count_ops f ops'
  end.

Definition count_push : list op -> Z := count_ops is_push.
Definition count_cancel : list op -> Z := count_ops is_cancel.
Definition count_pop : list op -> Z := count_ops is_pop.

(** Every pushed pointer points to a timer. *)
Definition pushes_nonnull (ops : list op) : bool :=
  forallb (fun o => match o with Push timer => negb (is_null timer) | _ => true end) ops.

(** The sequence numbers returned by the calls to [push], in call order. *)
Fixpoint pushed_ids (rs : list ret) : list Z :=
  match rs with
  | [] => []
  | RetSeq s :: rs' => s :: pushed_ids rs'
  | _ :: rs' => pushed_ids rs'
  end.

(** ** Derived notions used in the statements *)

(** The front entry, if there is one, is not a cancelled timer. *)
Definition front_live (q : TimerQueue) : Prop :=
  match front q with
  | Some p => p <> nullptr
  | None => True
  end.

(** Length of the longest prefix of null entries. *)
Fixpoint leading_nulls (l : list Timer_ptr) : nat :=
  match l with
  | p :: l' => if is_null p then S (leading_nulls l') else 0%nat
  | [] => 0%nat
  end.

(** The timers that are still running, each with the number under which
    the outside world knows it: the entry at index [i] has number
    [i + m_sequence_offset]. *)
Fixpoint live_from (off : Z) (l : list Timer_ptr) : list (Z * Timer_ptr) :=
  match l with
  | [] => []
  | p :: l' =>
      if is_null p then live_from (off + 1) l' else (off, p) :: live_from (off + 1) l'
  end.

Definition live_entries (q : TimerQueue) : list (Z * Timer_ptr) :=
  live_from (m_sequence_offset q) (m_running_timers q).

(** ** One call as a transition

    [step_rel o q r q'] lists the four ways in which a call of the code
    above can succeed: a push, a cancel of the current timer, a cancel
    further back, a pop.  [step_inv] and [step_complete] below show that it
    is the graph of [step]. *)

Inductive step_rel : op -> TimerQueue -> ret -> TimerQueue -> Prop :=
  | step_push off l timer :
      step_rel (Push timer) (mkTimerQueue off l)
        (RetSeq (wrap64 (Z.of_nat (length l) + off)))
        (mkTimerQueue off (l ++ [timer]))
  | step_cancel_front off p rest sequence :
      wrap64 (sequence - off) = 0 ->
      p <> nullptr ->
      step_rel (Cancel sequence) (mkTimerQueue off (p :: rest))
        (RetBool true)
        (mkTimerQueue (wrap64 (off + 1 + Z.of_nat (leading_nulls rest)))
                      (drop (leading_nulls rest) rest))
  | step_cancel_inner off l sequence (i : nat) p :
      wrap64 (sequence - off) = Z.of_nat i ->
      i <> 0%nat ->
      l !! i = Some p ->
      p <> nullptr ->
      step_rel (Cancel sequence) (mkTimerQueue off l)
        (RetBool false)
        (mkTimerQueue off (<[i := nullptr]> l))
  | step_pop off p rest :
      step_rel Pop (mkTimerQueue off (p :: rest))
        (RetTimer p)
        (mkTimerQueue (wrap64 (off + 1 + Z.of_nat (leading_nulls rest)))
                      (drop (leading_nulls rest) rest)).

(** What a call adds to the number of pushes, and to the number of entries
    that are not null. *)
Definition push1 (o : op) : Z := if is_push o then 1 else 0.

Definition live_delta (o : op) : Z := if is_push o then 1 else -1.

(** ** The queue as its users see it

    A second, independent description that follows the words of the
    documentation instead of the code: a counter of the numbers handed out
    and the running timers in arrival order, each with its number.  A call
    whose documented precondition does not hold has no result:
    - [push] hands out the next number (the pointer must point to a timer);
    - [cancel] needs a number that was returned by an earlier [push] and
      whose timer has neither expired (been popped) nor been cancelled,
      and tells whether that timer was the current one;
    - [pop] needs a queue that is not empty and returns the oldest timer. *)

Module Model.

Record state : Type := mk {
  next_sequence : Z;
  running : list (Z * Timer_ptr)
}.

Definition init : state := mk 0 [].

Definition ids (a : state) : list Z := (running a).*1.

Fixpoint remove_id (s : Z) (l : list (Z * Timer_ptr)) : list (Z * Timer_ptr) :=
  match l with
  | [] => []
  | e :: l' => if e.1 =? s then remove_id s l' else e :: remove_id s l'
  end.

Definition step (o : op) (a : state) : option (ret * state) :=
  match o with
  | Push timer =>
      if is_null timer then None
      else Some (RetSeq (next_sequence a),
                 mk (next_sequence a + 1) (running a ++ [(next_sequence a, timer)]))
  | Cancel s =>
      if bool_decide (s ∈ ids a) then
        Some (RetBool (bool_decide (head (ids a) = Some s)),
              mk (next_sequence a) (remove_id s (running a)))
      else None
  | Pop =>
      match running a with
      | [] => None
      | (_, timer) :: rest => Some (RetTimer timer, mk (next_sequence a) rest)
      end
  end.

Fixpoint run (ops : list op) (a : state) : option (list ret * state) :=
  match ops with
  | [] => Some ([], a)
  | o :: ops' =>
      match step o a with
      | None => None
      | Some (r, a') =>
          match run ops' a' with
          | None => None
          | Some (rs, a'') => Some (r :: rs, a'')
          end
      end
  end.

End Model.

(** The code state [q] represents the user's view [a]. *)
Definition represents (q : TimerQueue) (a : Model.state) : Prop :=
  0 <= m_sequence_offset q /\
  m_sequence_offset q + size q = Model.next_sequence a /\
  Model.next_sequence a < 2 ^ 64 /\
  Model.running a = live_entries q /\
  front_live q.

(** ** Named scenarios *)

(** Scenario 4 of the specification, "mid-cancel". *)
Definition mid_cancel_ops (t0 t1 t2 t3 t4 : Timer_ptr) : list op :=
  [Push t0; Push t1; Push t2; Push t3; Push t4; Cancel 2; Pop; Pop].

(** What scenario 4 expects, with the final offset left open: the pushes
    return 0 to 4, the pops return the first two timers, the offset is
    [sequence_offset] and the front is the fourth timer. *)
Definition mid_cancel_outcome (t0 t1 t2 t3 t4 : Timer_ptr) (sequence_offset : Z) : Prop :=
  exists q,
    run (mid_cancel_ops t0 t1 t2 t3 t4) TimerQueue_ctor =
      Ok ([RetSeq 0; RetSeq 1; RetSeq 2; RetSeq 3; RetSeq 4;
           RetBool false; RetTimer t0; RetTimer t1], q) /\
    get_sequence_offset q = sequence_offset /\
    front q = Some t3.

(** Scenario 5 of the specification, "front-cancel sweep". *)
Definition front_cancel_ops (t0 t1 t2 : Timer_ptr) : list op :=
  [Push t0; Push t1; Push t2; Cancel 1; Cancel 0].

(** The reading of [m_sequence_offset] as "count of timers popped so far",
    for one call sequence on a fresh queue. *)
Definition offset_is_pop_count (ops : list op) : Prop :=
  forall rets q,
    run ops TimerQueue_ctor = Ok (rets, q) -> m_sequence_offset q = count_pop ops.



(** A small history used to instantiate the general statements. *)
Definition example_ops : list op :=
  [Push 100; Push 101; Push 102; Push 103; Cancel 1; Pop; Push 104].
Definition example_rets : list ret :=
  [RetSeq 0; RetSeq 1; RetSeq 2; RetSeq 3; RetBool false; RetTimer 100; RetSeq 4].
Definition example_queue : TimerQueue := mkTimerQueue 2 [102; 103; 104].
Definition example_ops_before : list op :=
  [Push 100; Push 101; Push 102; Push 103; Cancel 1].
Definition example_ops_after : list op := [Pop; Push 104].
Definition example_rets_before : list ret :=
  [RetSeq 0; RetSeq 1; RetSeq 2; RetSeq 3; RetBool false].
Definition example_queue_before : TimerQueue := mkTimerQueue 0 [100; nullptr; 102; 103].
Definition example_model : Model.state := Model.mk 5 [(2, 102); (3, 103); (4, 104)].

(** ** The remaining members and what is said about them *)

(** Reading through a [Timer*]: a read through [nullptr] has no value. *)
Inductive deref (A : Type) : Type :=
  | Value (a : A)
  | NullDereference.
Arguments Value {A} a.
Arguments NullDereference {A}.

(** [next_expiration_point].  [Timer::none] and the member
    [Timer::get_expiration_point] are declared in [Timer.h], which is not
    among the sources; they are the parameters [none] and
    [get_expiration_point], the latter giving the expiration point stored
    in the timer at an address. *)
Definition next_expiration_point {time_point : Type} (none : time_point)
    (get_expiration_point : Timer_ptr -> time_point) (q : TimerQueue) : deref time_point :=
  if empty q then Value none
  else
    (* m_running_timers.front()->get_expiration_point() *)
    match front q with
    | Some p => if is_null p then NullDereference else Value (get_expiration_point p)
    | None => NullDereference
    end.

(** Every sequence number passed to [cancel] is a [uint64_t]. *)
Definition cancels_in_range (ops : list op) : bool :=
  forallb (fun o => match o with
                    | Cancel s => (0 <=? s) && (s <? 2 ^ 64)
                    | _ => true
                    end) ops.

(** The sequence numbers passed to [cancel], in call order. *)
Fixpoint cancel_args (ops : list op) : list Z :=
  match ops with
  | [] => []
  | Cancel s :: ops' => s :: cancel_args ops'
  | _ :: ops' => cancel_args ops'
  end.

(** The timers returned by the calls to [pop], in call order. *)
Fixpoint popped_timers (rs : list ret) : list Timer_ptr :=
  match rs with
  | [] => []
  | RetTimer t :: rs' => t :: popped_timers rs'
  | _ :: rs' => popped_timers rs'
  end.

(** The pushed timers, each with the number its [push] returned, in call
    order. *)
Fixpoint pushed_entries (ops : list op) (rs : list ret) : list (Z * Timer_ptr) :=
  match ops, rs with
  | Push t :: ops', RetSeq s :: rs' => (s, t) :: pushed_entries ops' rs'
  | _ :: ops', _ :: rs' => pushed_entries ops' rs'
  | _, _ => []
  end.

(** The pushed timers whose number is never passed to [cancel]. *)
Definition never_cancelled (ops : list op) (rs : list ret) : list (Z * Timer_ptr) :=
  filter (fun e => e.1 ∉ cancel_args ops) (pushed_entries ops rs).

(** A number whose entry has left the queue or has been overwritten with
    null. *)
Definition stale (s : Z) (q : TimerQueue) : Prop :=
  s < m_sequence_offset q \/
  exists i : nat,
    s = m_sequence_offset q + Z.of_nat i /\ m_running_timers q !! i = Some nullptr.

(** The numbers of the user's view are distinct and have been handed out. *)
Definition model_wf (a : Model.state) : Prop :=
  NoDup (Model.ids a) /\ forall s, s ∈ Model.ids a -> s < Model.next_sequence a.

(** A queue whose counter is about to wrap around. *)
Definition wrapping_queue : TimerQueue := mkTimerQueue (2 ^ 64 - 1) [100; 101; 102].

(** * Properties *)

(** ** Arithmetic of [wrap64] *)

Lemma wrap64_small z : 0 <= z < 2 ^ 64 -> wrap64 z = z.
Proof. intros Hz. unfold wrap64. apply Z.mod_small. lia. Qed.

Lemma wrap64_range z : 0 <= wrap64 z < 2 ^ 64.
Proof. unfold wrap64. apply Z.mod_pos_bound. lia. Qed.

Lemma wrap64_add_l x y : wrap64 (wrap64 x + y) = wrap64 (x + y).
Proof. unfold wrap64. apply Zplus_mod_idemp_l. Qed.

Lemma wrap64_sub_l x y : wrap64 (wrap64 x - y) = wrap64 (x - y).
Proof. unfold wrap64. apply Zminus_mod_idemp_l. Qed.

Lemma is_null_true p : is_null p = true <-> p = nullptr.
Proof. unfold is_null. apply Z.eqb_eq. Qed.

Lemma is_null_false p : is_null p = false <-> p <> nullptr.
Proof. unfold is_null. apply Z.eqb_neq. Qed.

(** ** The two loops *)

Lemma leading_nulls_le l : (leading_nulls l <= length l)%nat.
Proof. induction l as [|p l IH]; simpl; [lia|]. destruct (is_null p); lia. Qed.

Lemma pfwn_rest off l :
  (pop_front_while_null off l).2 = drop (leading_nulls l) l.
Proof.
  revert off. induction l as [|p l IH]; intros off; simpl; [done|].
  destruct (is_null p); [apply IH | done].
Qed.

Lemma pfwn_offset x l :
  (pop_front_while_null (wrap64 x) l).1 = wrap64 (x + Z.of_nat (leading_nulls l)).
Proof.
  revert x. induction l as [|p l IH]; intros x; simpl.
  - f_equal. lia.
  - destruct (is_null p); simpl.
    + rewrite IH, <- Z.add_assoc, wrap64_add_l. f_equal. lia.
    + f_equal. lia.
Qed.

(** The iterator loop of [pop] removes what the [pop_front] loop of
    [cancel] removes. *)
Lemma pop_scan_pfwn off b rest :
  pop_scan off b rest =
    ((pop_front_while_null off rest).1, (b + leading_nulls rest)%nat).
Proof.
  revert off b. induction rest as [|p l IH]; intros off b; simpl.
  - f_equal. lia.
  - destruct (is_null p); simpl.
    + rewrite IH. f_equal. lia.
    + f_equal. lia.
Qed.

Lemma head_drop_leading_nulls l p :
  head (drop (leading_nulls l) l) = Some p -> p <> nullptr.
Proof.
  induction l as [|p0 l IH]; simpl; [done|].
  destruct (is_null p0) eqn:E; simpl.
  - apply IH.
  - intros [= <-]. by apply is_null_false.
Qed.

Lemma count_null_drop_leading l :
  count_null (drop (leading_nulls l) l) = count_null l - Z.of_nat (leading_nulls l).
Proof.
  induction l as [|p l IH]; simpl; [done|].
  destruct (is_null p) eqn:E; simpl; [rewrite IH; lia | rewrite E; lia].
Qed.

Lemma live_from_drop_leading off l :
  live_from (off + Z.of_nat (leading_nulls l)) (drop (leading_nulls l) l) = live_from off l.
Proof.
  revert off. induction l as [|p l IH]; intros off; simpl; [done|].
  destruct (is_null p) eqn:E; simpl.
  - rewrite <- (IH (off + 1)). f_equal. lia.
  - rewrite E, Z.add_0_r. reflexivity.
Qed.

Lemma leading_nulls_lookup l (i : nat) p :
  l !! i = Some p -> p <> nullptr -> (leading_nulls l <= i)%nat.
Proof.
  revert i. induction l as [|p0 l IH]; intros i Hi Hp; simpl; [lia|].
  destruct (is_null p0) eqn:E; [|lia].
  destruct i as [|i]; simpl in Hi.
  - injection Hi as ->. apply is_null_true in E. done.
  - specialize (IH i Hi Hp). lia.
Qed.

(** Below [2 ^ 31] entries the [int] of [cancelled_in_queue] does not
    overflow and is the number of null entries. *)
Lemma wrap_int_small z : - 2 ^ 31 <= z < 2 ^ 31 -> wrap_int z = z.
Proof. intros Hz. unfold wrap_int. rewrite Z.mod_small by lia. lia. Qed.

Lemma count_null_range l : 0 <= count_null l <= Z.of_nat (length l).
Proof.
  induction l as [|p l IH]; simpl; [lia|]. destruct (is_null p); lia.
Qed.

Lemma cancelled_loop_exact sz l :
  0 <= sz ->
  sz + Z.of_nat (length l) < 2 ^ 31 ->
  cancelled_loop sz l = sz + count_null l.
Proof.
  revert sz. induction l as [|p l IH]; intros sz H0 Hb; simpl in *; [lia|].
  rewrite wrap_int_small by (destruct (is_null p); lia).
  rewrite IH by (destruct (is_null p); lia). lia.
Qed.

Lemma cancelled_in_queue_exact q :
  size q < 2 ^ 31 -> cancelled_in_queue q = count_null (m_running_timers q).
Proof.
  intros Hs. unfold cancelled_in_queue, size in *.
  rewrite cancelled_loop_exact by lia. lia.
Qed.

(** ** The member functions in closed form *)

Lemma pop_nil off : pop (mkTimerQueue off []) = AssertionFailed.
Proof. reflexivity. Qed.

Lemma pop_cons off timer rest :
  pop (mkTimerQueue off (timer :: rest)) =
    Ok (timer, mkTimerQueue (wrap64 (off + 1 + Z.of_nat (leading_nulls rest)))
                            (drop (leading_nulls rest) rest)).
Proof.
  unfold pop; simpl. rewrite drop_0, pop_scan_pfwn, pfwn_offset. reflexivity.
Qed.

Lemma cancel_unfold sequence q :
  cancel sequence q =
    let i := wrap64 (sequence - m_sequence_offset q) in
    let l := m_running_timers q in
    if (i <? size q) && negb (is_null (default nullptr (l !! Z.to_nat i))) then
      if i =? 0 then
        Ok (true, mkTimerQueue
                    (wrap64 (m_sequence_offset q + 1 + Z.of_nat (leading_nulls (tail l))))
                    (drop (leading_nulls (tail l)) (tail l)))
      else Ok (false, mkTimerQueue (m_sequence_offset q) (<[Z.to_nat i := nullptr]> l))
    else AssertionFailed.
Proof.
  unfold cancel. cbv zeta.
  pose proof (wrap64_range (sequence - m_sequence_offset q)) as Hr.
  set (i := wrap64 (sequence - m_sequence_offset q)) in *.
  assert ((0 <=? i) = true) as -> by (apply Z.leb_le; lia).
  destruct (i <? size q) eqn:Hlt; simpl; [|done].
  destruct (is_null (default nullptr (m_running_timers q !! Z.to_nat i))) eqn:Hn; simpl; [done|].
  destruct (i =? 0) eqn:H0; [|done].
  apply Z.eqb_eq in H0. rewrite H0. simpl.
  assert (tail (<[Z.to_nat 0:=nullptr]> (m_running_timers q)) = tail (m_running_timers q)) as ->
    by (destruct (m_running_timers q); done).
  destruct (pop_front_while_null _ _) as [o l'] eqn:E.
  pose proof (pfwn_offset (m_sequence_offset q + 1) (tail (m_running_timers q))) as H1.
  pose proof (pfwn_rest (wrap64 (m_sequence_offset q + 1)) (tail (m_running_timers q))) as H2.
  rewrite E in H1, H2. simpl in H1, H2. by subst.
Qed.

(** ** Calls and transitions agree *)

Lemma cancel_inv sequence q b q' :
  cancel sequence q = Ok (b, q') -> step_rel (Cancel sequence) q (RetBool b) q'.
Proof.
  rewrite cancel_unfold. cbv zeta. destruct q as [off l]; simpl.
  pose proof (wrap64_range (sequence - off)) as Hr.
  destruct (wrap64 (sequence - off) <? size _) eqn:Hlt; simpl; [|done].
  apply Z.ltb_lt in Hlt. unfold size in Hlt; simpl in Hlt.
  destruct (l !! Z.to_nat (wrap64 (sequence - off))) as [p|] eqn:Hp; simpl.
  2:{ apply lookup_ge_None in Hp. lia. }
  destruct (is_null p) eqn:Hn; simpl; [done|]. apply is_null_false in Hn.
  destruct (wrap64 (sequence - off) =? 0) eqn:H0; intros [= <- <-].
  - apply Z.eqb_eq in H0. rewrite H0 in Hp. destruct l as [|p0 rest]; [done|].
    simpl in Hp. injection Hp as ->. by constructor.
  - apply Z.eqb_neq in H0. eapply step_cancel_inner; eauto; lia.
Qed.

Lemma pop_inv q timer q' :
  pop q = Ok (timer, q') -> step_rel Pop q (RetTimer timer) q'.
Proof.
  destruct q as [off [|p rest]]; [by rewrite pop_nil|].
  rewrite pop_cons. intros [= <- <-]. constructor.
Qed.

Lemma step_inv o q r q' : step o q = Ok (r, q') -> step_rel o q r q'.
Proof.
  destruct o as [timer|sequence|]; simpl.
  - destruct q as [off l]. unfold push, size; simpl. intros [= <- <-].
    rewrite length_app; simpl.
    replace (Z.of_nat (length l + 1) - 1) with (Z.of_nat (length l)) by lia.
    constructor.
  - destruct (cancel sequence q) as [[b q1]|] eqn:E; simpl; [|done].
    intros [= <- <-]. by apply cancel_inv.
  - destruct (pop q) as [[t q1]|] eqn:E; simpl; [|done].
    intros [= <- <-]. by apply pop_inv.
Qed.

Lemma step_complete o q r q' : step_rel o q r q' -> step o q = Ok (r, q').
Proof.
  intros H. destruct H as [off l timer|off p rest s H0 Hp|off l s i p Hi Hne Hl Hp|off p rest];
    simpl.
  - unfold push, size; simpl. rewrite length_app; simpl.
    replace (Z.of_nat (length l + 1) - 1) with (Z.of_nat (length l)) by lia. done.
  - rewrite cancel_unfold; cbv zeta; simpl. rewrite H0. unfold size; simpl.
    apply is_null_false in Hp. rewrite Hp. simpl. done.
  - rewrite cancel_unfold; cbv zeta; simpl. rewrite Hi, Nat2Z.id, Hl. simpl.
    apply is_null_false in Hp. rewrite Hp.
    apply lookup_lt_Some in Hl. unfold size; simpl.
    assert ((Z.of_nat i <? Z.of_nat (length l)) = true) as -> by (apply Z.ltb_lt; lia).
    assert ((Z.of_nat i =? 0) = false) as -> by (apply Z.eqb_neq; lia). done.
  - by rewrite pop_cons.
Qed.

Lemma run_cons_inv o ops q rets q'' :
  run (o :: ops) q = Ok (rets, q'') ->
  exists r q' rs, step o q = Ok (r, q') /\ run ops q' = Ok (rs, q'') /\ rets = r :: rs.
Proof.
  simpl. destruct (step o q) as [[r q']|]; simpl; [|done].
  destruct (run ops q') as [[rs q2]|] eqn:E; simpl; [|done].
  intros [= <- <-]. by exists r, q', rs.
Qed.

Lemma run_app_inv ops1 ops2 q rets q2 :
  run (ops1 ++ ops2) q = Ok (rets, q2) ->
  exists rs1 q1 rs2,
    run ops1 q = Ok (rs1, q1) /\ run ops2 q1 = Ok (rs2, q2) /\ rets = rs1 ++ rs2.
Proof.
  revert q rets. induction ops1 as [|o ops1 IH]; intros q rets H; simpl in *.
  - by exists [], q, rets.
  - destruct (step o q) as [[r q']|]; simpl in *; [|done].
    destruct (run (ops1 ++ ops2) q') as [[rs qq]|] eqn:E; simpl in *; [|done].
    injection H as <- <-.
    destruct (IH _ _ E) as (rs1 & q1 & rs2 & H1 & H2 & ->).
    rewrite H1; simpl. by exists (r :: rs1), q1, rs2.
Qed.

(** ** What one call preserves *)

Lemma step_front_live o q r q' :
  step_rel o q r q' ->
  front_live q ->
  (forall timer, o = Push timer -> timer <> nullptr) ->
  front_live q'.
Proof.
  intros H Hf Hp.
  destruct H as [off l timer|off p rest s H0 Hn|off l s i p Hi Hne Hl Hn|off p rest];
    unfold front_live, front in *; simpl in *.
  - destruct l; simpl; [by apply Hp | done].
  - destruct (head (drop _ rest)) eqn:E; [|done]. by eapply head_drop_leading_nulls.
  - destruct l as [|p0 l]; [done|]. by destruct i.
  - destruct (head (drop _ rest)) eqn:E; [|done]. by eapply head_drop_leading_nulls.
Qed.

Lemma size_drop_leading off off' (rest : list Timer_ptr) :
  size (mkTimerQueue off (drop (leading_nulls rest) rest)) =
    size (mkTimerQueue off' rest) - Z.of_nat (leading_nulls rest).
Proof.
  unfold size; simpl. rewrite length_drop.
  pose proof (leading_nulls_le rest). lia.
Qed.

(** The offset counts, modulo [2 ^ 64], the entries that left the deque. *)
Lemma step_offset o q r q' d :
  step_rel o q r q' ->
  m_sequence_offset q = wrap64 d ->
  m_sequence_offset q' = wrap64 (d + (size q + push1 o - size q')) /\
  size q' <= size q + push1 o /\
  (is_pop o = true -> size q' < size q).
Proof.
  intros H Hd.
  destruct H as [off l timer|off p rest s H0 Hn|off l s i p Hi Hne Hl Hn|off p rest];
    simpl in *; unfold push1; simpl.
  - unfold size; simpl. rewrite length_app; simpl. split_and!; [|lia|done].
    rewrite Hd. f_equal. lia.
  - rewrite (size_drop_leading _ off rest). pose proof (leading_nulls_le rest).
    unfold size; simpl. split_and!; [|lia|done].
    rewrite Hd, <- Z.add_assoc, wrap64_add_l. f_equal. lia.
  - unfold size; simpl. rewrite length_insert. split_and!; [|lia|done].
    rewrite Hd. f_equal. lia.
  - rewrite (size_drop_leading _ off rest). pose proof (leading_nulls_le rest).
    unfold size; simpl. split_and!; [|lia|lia].
    rewrite Hd, <- Z.add_assoc, wrap64_add_l. f_equal. lia.
Qed.

Lemma count_null_app l1 l2 : count_null (l1 ++ l2) = count_null l1 + count_null l2.
Proof. induction l1 as [|p l1 IH]; simpl; [done|]. rewrite IH. lia. Qed.

Lemma count_null_insert l (i : nat) p :
  l !! i = Some p -> p <> nullptr ->
  count_null (<[i := nullptr]> l) = count_null l + 1.
Proof.
  revert i. induction l as [|p0 l IH]; intros i Hi Hp; [done|].
  destruct i as [|i]; simpl in *.
  - injection Hi as ->. apply is_null_false in Hp. rewrite Hp. lia.
  - rewrite (IH i Hi Hp). lia.
Qed.

(** Entries that are not null: a push of a timer adds one, a cancel and a
    pop each take one away. *)
Lemma step_live_count o q r q' :
  step_rel o q r q' ->
  front_live q ->
  (forall timer, o = Push timer -> timer <> nullptr) ->
  size q' - count_null (m_running_timers q') =
    size q - count_null (m_running_timers q) + live_delta o.
Proof.
  intros H Hf Hp.
  destruct H as [off l timer|off p rest s H0 Hn|off l s i p Hi Hne Hl Hn|off p rest];
    unfold live_delta, front_live, front in *; simpl in *.
  - unfold size; simpl. rewrite length_app, count_null_app; simpl.
    specialize (Hp timer eq_refl). apply is_null_false in Hp. rewrite Hp. lia.
  - rewrite (size_drop_leading _ off rest), count_null_drop_leading.
    apply is_null_false in Hn. rewrite Hn. unfold size; simpl. lia.
  - unfold size; simpl. rewrite length_insert, (count_null_insert _ _ _ Hl Hn). lia.
  - rewrite (size_drop_leading _ off rest), count_null_drop_leading.
    apply is_null_false in Hf. rewrite Hf. unfold size; simpl. lia.
Qed.

(** ** What a sequence of calls preserves *)

Lemma pushes_nonnull_cons o ops :
  pushes_nonnull (o :: ops) = true ->
  (forall timer, o = Push timer -> timer <> nullptr) /\ pushes_nonnull ops = true.
Proof.
  unfold pushes_nonnull; simpl. intros [H1 H2]%andb_prop. split; [|done].
  intros timer ->. apply is_null_false. by destruct (is_null timer).
Qed.

Lemma run_front_live ops q rets q' :
  run ops q = Ok (rets, q') ->
  pushes_nonnull ops = true ->
  front_live q ->
  front_live q'.
Proof.
  revert q rets. induction ops as [|o ops IH]; intros q rets H Hnn Hf.
  - simpl in H. by injection H as _ <-.
  - apply run_cons_inv in H as (r & q1 & rs & H1 & H2 & ->).
    apply pushes_nonnull_cons in Hnn as [Hp Hnn].
    apply step_inv in H1. eapply IH; eauto using step_front_live.
Qed.

Lemma run_offset ops q rets q' d :
  run ops q = Ok (rets, q') ->
  m_sequence_offset q = wrap64 d ->
  m_sequence_offset q' = wrap64 (d + (size q + count_push ops - size q')) /\
  size q' <= size q + count_push ops.
Proof.
  revert q rets d. induction ops as [|o ops IH]; intros q rets d H Hd.
  - simpl in H. injection H as _ <-. unfold count_push; simpl.
    split; [|lia]. rewrite Hd. f_equal. lia.
  - apply run_cons_inv in H as (r & q1 & rs & H1 & H2 & ->).
    apply step_inv in H1. destruct (step_offset _ _ _ _ d H1 Hd) as (Ho & Hs & _).
    destruct (IH _ _ _ H2 Ho) as [Ho' Hs'].
    unfold count_push in *; simpl. fold (push1 o).
    split; [|lia]. rewrite Ho'. f_equal. lia.
Qed.

Lemma run_live_count ops q rets q' :
  run ops q = Ok (rets, q') ->
  pushes_nonnull ops = true ->
  front_live q ->
  size q' - count_null (m_running_timers q') =
    size q - count_null (m_running_timers q)
    + count_push ops - count_cancel ops - count_pop ops.
Proof.
  revert q rets. induction ops as [|o ops IH]; intros q rets H Hnn Hf.
  - simpl in H. injection H as _ <-. unfold count_push, count_cancel, count_pop; simpl. lia.
  - apply run_cons_inv in H as (r & q1 & rs & H1 & H2 & ->).
    apply pushes_nonnull_cons in Hnn as [Hp Hnn].
    apply step_inv in H1.
    pose proof (step_live_count _ _ _ _ H1 Hf Hp) as Hl.
    pose proof (step_front_live _ _ _ _ H1 Hf Hp) as Hf1.
    rewrite (IH _ _ H2 Hnn Hf1), Hl.
    unfold count_push, count_cancel, count_pop, live_delta; simpl.
    destruct o; simpl; lia.
Qed.

(** Evaluates a run whose pointers are variables known not to be null. *)
Ltac eval_run :=
  unfold run, step, push, TimerQueue_ctor; simpl;
  repeat (rewrite ?cancel_unfold, ?pop_cons; simpl;
          repeat match goal with
                 | H : is_null ?t = false |- context [is_null ?t] => rewrite H
                 end; simpl);
  try reflexivity.

(** ** The running timers and their numbers *)

Lemma live_from_app off l1 l2 :
  live_from off (l1 ++ l2) = live_from off l1 ++ live_from (off + Z.of_nat (length l1)) l2.
Proof.
  revert off. induction l1 as [|p l1 IH]; intros off; simpl.
  - by rewrite Z.add_0_r.
  - rewrite IH. replace (off + 1 + Z.of_nat (length l1)) with (off + Z.pos (Pos.of_succ_nat (length l1))) by lia.
    by destruct (is_null p).
Qed.

(** An entry of [live_from off l] is exactly a non-null entry of [l] with
    its index shifted by [off]. *)
Lemma elem_of_live_from off l s p :
  (s, p) ∈ live_from off l <->
  exists i : nat, s = off + Z.of_nat i /\ l !! i = Some p /\ p <> nullptr.
Proof.
  revert off. induction l as [|p0 l IH]; intros off; simpl.
  - split; [by intros ?%elem_of_nil | by intros (i & _ & ? & _)].
  - destruct (is_null p0) eqn:E.
    + rewrite IH. apply is_null_true in E. split.
      * intros (i & -> & Hi & Hp). exists (S i). split_and!; [lia|done|done].
      * intros (i & -> & Hi & Hp). destruct i as [|i]; simpl in Hi; [congruence|].
        exists i. split_and!; [lia|done|done].
    + rewrite elem_of_cons, IH. apply is_null_false in E. split.
      * intros [[= -> ->]|(i & -> & Hi & Hp)].
        -- exists 0%nat. split_and!; [lia|done|done].
        -- exists (S i). split_and!; [lia|done|done].
      * intros (i & -> & Hi & Hp). destruct i as [|i]; simpl in Hi.
        -- left. injection Hi as ->. f_equal. lia.
        -- right. exists i. split_and!; [lia|done|done].
Qed.

Lemma live_from_ge off l e : e ∈ live_from off l -> off <= e.1.
Proof. destruct e as [s p]. intros (i & -> & _)%elem_of_live_from. simpl. lia. Qed.

Lemma remove_id_absent s l :
  (forall e, e ∈ l -> e.1 <> s) -> Model.remove_id s l = l.
Proof.
  induction l as [|e l IH]; intros H; simpl; [done|].
  destruct (e.1 =? s) eqn:E.
  - apply Z.eqb_eq in E. exfalso. eapply H; [apply list_elem_of_here | done].
  - rewrite IH; [done|]. intros e' He'. apply H. by apply list_elem_of_further.
Qed.

Lemma remove_id_live_from_above s off l :
  s < off -> Model.remove_id s (live_from off l) = live_from off l.
Proof.
  intros Hs. apply remove_id_absent. intros e He%live_from_ge. lia.
Qed.

(** Overwriting entry [i] with null takes the number [off + i] out of the
    running timers and leaves the others as they are. *)
Lemma live_from_insert_null off l (i : nat) :
  live_from off (<[i := nullptr]> l) = Model.remove_id (off + Z.of_nat i) (live_from off l).
Proof.
  revert off i. induction l as [|p l IH]; intros off i; [done|].
  destruct i as [|i]; simpl.
  - rewrite Z.add_0_r. destruct (is_null p); simpl.
    + symmetry. apply remove_id_live_from_above. lia.
    + rewrite Z.eqb_refl. symmetry. apply remove_id_live_from_above. lia.
  - replace (off + Z.of_nat (S i)) with (off + 1 + Z.of_nat i) by lia.
    destruct (is_null p); simpl; [apply IH|].
    assert ((off =? off + 1 + Z.of_nat i) = false) as -> by (apply Z.eqb_neq; lia).
    f_equal. apply IH.
Qed.

(** ** The code implements the user's view *)

Lemma represents_ctor : represents TimerQueue_ctor Model.init.
Proof. unfold represents, front_live; simpl. split_and!; (lia || done). Qed.

Lemma model_step_next o a r a' :
  Model.step o a = Some (r, a') ->
  Model.next_sequence a' = Model.next_sequence a + push1 o.
Proof.
  destruct o as [timer|s|]; unfold push1; simpl.
  - destruct (is_null timer); [done|]. by intros [= <- <-].
  - case_bool_decide; [|done]. intros [= <- <-]. simpl. lia.
  - destruct (Model.running a) as [|[s t] rest]; [done|]. intros [= <- <-]. simpl. lia.
Qed.

Lemma represents_front_removed off p rest a_next :
  0 <= off ->
  off + size (mkTimerQueue off (p :: rest)) = a_next ->
  a_next < 2 ^ 64 ->
  represents
    (mkTimerQueue (wrap64 (off + 1 + Z.of_nat (leading_nulls rest)))
                  (drop (leading_nulls rest) rest))
    (Model.mk a_next (live_from (off + 1) rest)).
Proof.
  intros H0 Hn Hb. unfold size in Hn; simpl in Hn.
  pose proof (leading_nulls_le rest) as Hk.
  rewrite wrap64_small by lia.
  unfold represents, live_entries, front_live, front, size; simpl.
  rewrite length_drop, live_from_drop_leading.
  split_and!; [lia|lia|lia|done|].
  destruct (head (drop _ rest)) eqn:E; [|done]. by eapply head_drop_leading_nulls.
Qed.

Lemma refine_step o q a r a' :
  represents q a ->
  Model.step o a = Some (r, a') ->
  Model.next_sequence a' < 2 ^ 64 ->
  exists q', step_rel o q r q' /\ represents q' a'.
Proof.
  intros (H0 & Hn & Hb & Hr & Hf) Hs Hb'.
  destruct q as [off l]. destruct a as [next running].
  unfold live_entries, size in *; simpl in *. subst next running.
  destruct o as [timer|s|]; simpl in Hs.
  - (* push *)
    destruct (is_null timer) eqn:Et; [done|]. injection Hs as <- <-. simpl in Hb'.
    exists (mkTimerQueue off (l ++ [timer])). split.
    + replace (off + Z.of_nat (length l))
        with (wrap64 (Z.of_nat (length l) + off)) by (rewrite wrap64_small; lia).
      constructor.
    + unfold represents, live_entries, size; simpl.
      rewrite length_app, live_from_app; simpl. rewrite Et.
      split_and!; [lia|lia|lia|done|].
      eapply (step_front_live (Push timer)); [constructor|done|].
      intros ? [= <-]. by apply is_null_false.
  - (* cancel *)
    unfold Model.ids in Hs; simpl in Hs.
    case_bool_decide as Hin; [|done]. injection Hs as <- <-.
    apply list_elem_of_fmap in Hin as ([s' p] & -> & Hin). simpl.
    apply elem_of_live_from in Hin as (i & -> & Hi & Hp).
    pose proof (lookup_lt_Some _ _ _ Hi) as Hlt.
    assert (wrap64 (off + Z.of_nat i - off) = Z.of_nat i) as Hw.
    { replace (off + Z.of_nat i - off) with (Z.of_nat i) by lia. apply wrap64_small. lia. }
    destruct l as [|p0 rest]; [done|].
    assert (p0 <> nullptr) as Hp0 by apply Hf.
    pose proof Hp0 as E0. apply is_null_false in E0.
    assert (head (live_from off (p0 :: rest)).*1 = Some off) as Hhead
      by (simpl; by rewrite E0).
    rewrite Hhead. simpl in Hb'. simpl fst.
    destruct i as [|i].
    + (* the current timer *)
      simpl in Hi. injection Hi as ->.
      rewrite bool_decide_eq_true_2 by (f_equal; lia).
      eexists. split.
      * apply step_cancel_front; [by rewrite Hw | done].
      * simpl. rewrite E0. simpl. rewrite Z.add_0_r, Z.eqb_refl.
        rewrite remove_id_live_from_above by lia.
        apply (represents_front_removed off p rest); [done|reflexivity|done].
    + (* a timer further back *)
      rewrite bool_decide_eq_false_2 by (intros [= ?]; lia).
      eexists. split.
      * apply (step_cancel_inner _ _ _ (S i) p); [by rewrite Hw | done | done | done].
      * rewrite <- live_from_insert_null.
        unfold represents, live_entries, size, front_live; simpl. rewrite length_insert.
        split_and!; [lia|done|done|done|done].
  - (* pop *)
    destruct l as [|p0 rest]; [done|].
    assert (p0 <> nullptr) as Hp0 by apply Hf.
    pose proof Hp0 as E0. apply is_null_false in E0.
    simpl in Hs. rewrite E0 in Hs. injection Hs as <- <-.
    eexists. split; [constructor|].
    apply (represents_front_removed off p0 rest); [done|reflexivity|done].
Qed.

Lemma count_push_nonneg ops : 0 <= count_push ops.
Proof.
  unfold count_push. induction ops as [|o ops IH]; simpl; [lia|].
  destruct (is_push o); lia.
Qed.

Lemma refine_run ops q a rets a' :
  represents q a ->
  Model.run ops a = Some (rets, a') ->
  Model.next_sequence a + count_push ops < 2 ^ 64 ->
  exists q', run ops q = Ok (rets, q') /\ represents q' a'.
Proof.
  revert q a rets. induction ops as [|o ops IH]; intros q a rets Hr Hm Hb; simpl in Hm.
  - injection Hm as <- <-. by exists q.
  - destruct (Model.step o a) as [[r a1]|] eqn:Es; [|done].
    destruct (Model.run ops a1) as [[rs a2]|] eqn:Er; [|done].
    injection Hm as <- <-.
    pose proof (model_step_next _ _ _ _ Es) as Hn.
    pose proof (count_push_nonneg ops) as Hc.
    unfold count_push in Hb; simpl in Hb. fold (push1 o) in Hb. fold count_push in Hb.
    destruct (refine_step _ _ _ _ _ Hr Es) as (q1 & Hs1 & Hr1); [lia|].
    destruct (IH _ _ _ Hr1 Er) as (q2 & Hs2 & Hr2); [lia|].
    exists q2. split; [|done].
    simpl. rewrite (step_complete _ _ _ _ Hs1). simpl. by rewrite Hs2.
Qed.

(** ** Sequence numbers and indices *)

(** Within [uint64_t] the index computed by [cancel] determines the
    sequence number. *)
Lemma wrap64_sub_eq s off i :
  0 <= s < 2 ^ 64 -> 0 <= off -> 0 <= i -> off + i < 2 ^ 64 ->
  wrap64 (s - off) = i -> s = off + i.
Proof.
  unfold wrap64. intros Hs Ho Hi Hb H.
  pose proof (Z.div_mod (s - off) (2 ^ 64)) as Hdm.
  rewrite H in Hdm. lia.
Qed.

Lemma wrap64_sub_index off (i : nat) :
  Z.of_nat i < 2 ^ 64 -> wrap64 (off + Z.of_nat i - off) = Z.of_nat i.
Proof.
  intros Hi. replace (off + Z.of_nat i - off) with (Z.of_nat i) by lia.
  apply wrap64_small. lia.
Qed.

(** A running timer keeps its number while other entries come and go. *)
Lemma step_keeps_entry o q r q' (i : nat) p :
  step_rel o q r q' ->
  0 <= m_sequence_offset q ->
  m_sequence_offset q + size q < 2 ^ 64 ->
  m_running_timers q !! i = Some p ->
  p <> nullptr ->
  (forall s, o = Cancel s -> 0 <= s < 2 ^ 64 /\ s <> m_sequence_offset q + Z.of_nat i) ->
  (o = Pop -> i <> 0%nat) ->
  exists i' : nat,
    m_sequence_offset q' + Z.of_nat i' = m_sequence_offset q + Z.of_nat i /\
    m_running_timers q' !! i' = Some p.
Proof.
  intros H H0 Hb Hi Hp Hc Hpop.
  assert (forall off p0 rest,
    0 <= off -> off + Z.of_nat (S (length rest)) < 2 ^ 64 ->
    (p0 :: rest) !! i = Some p -> i <> 0%nat ->
    exists i' : nat,
      wrap64 (off + 1 + Z.of_nat (leading_nulls rest)) + Z.of_nat i' = off + Z.of_nat i /\
      drop (leading_nulls rest) rest !! i' = Some p) as Hfront.
  { intros off p0 rest Ho Hlen Hl Hne. destruct i as [|j]; [done|]. simpl in Hl.
    pose proof (leading_nulls_lookup _ _ _ Hl Hp) as Hk.
    pose proof (leading_nulls_le rest) as Hk'.
    exists (j - leading_nulls rest)%nat. rewrite wrap64_small by lia. split; [lia|].
    rewrite lookup_drop. rewrite <- Hl. f_equal. lia. }
  destruct H as [off l timer|off p0 rest s Hw Hn|off l s i0 p0 Hw Hne Hl Hn|off p0 rest];
    unfold size in *; simpl in *.
  - exists i. split; [done|]. apply lookup_app_l_Some. done.
  - destruct (Hc s eq_refl) as [Hs Hsi].
    apply (wrap64_sub_eq s off 0) in Hw; [|lia..].
    apply (Hfront off p0 rest); [done|done|done|]. intros ->. lia.
  - destruct (Hc s eq_refl) as [Hs Hsi].
    pose proof (lookup_lt_Some _ _ _ Hl) as Hlt.
    apply (wrap64_sub_eq s off (Z.of_nat i0)) in Hw; [|lia..].
    exists i. split; [done|]. rewrite list_lookup_insert_ne; [done|]. intros ->. lia.
  - apply (Hfront off p0 rest); [done|done|done|by apply Hpop].
Qed.

(** ** Where the running timers of the user's view come from *)

Lemma elem_of_remove_id s l e : e ∈ Model.remove_id s l -> e ∈ l.
Proof.
  induction l as [|e0 l IH]; simpl; [done|].
  destruct (e0.1 =? s).
  - intros H. right. by apply IH.
  - intros [->|H]%elem_of_cons; [left | right; by apply IH].
Qed.

Lemma model_step_running o a r a' e :
  Model.step o a = Some (r, a') ->
  e ∈ Model.running a' ->
  e ∈ Model.running a \/ (exists p, o = Push p /\ r = RetSeq e.1 /\ e.2 = p).
Proof.
  destruct o as [timer|s|]; simpl.
  - destruct (is_null timer); [done|]. intros [= <- <-]; simpl.
    intros [H|H%list_elem_of_singleton]%elem_of_app; [by left|subst e; right].
    by exists timer.
  - case_bool_decide; [|done]. intros [= <- <-]; simpl.
    intros He%elem_of_remove_id. by left.
  - destruct (Model.running a) as [|[s t] rest]; [done|]. intros [= <- <-]; simpl.
    intros H. left. by right.
Qed.

Lemma model_run_running ops a rets a' e :
  Model.run ops a = Some (rets, a') ->
  e ∈ Model.running a' ->
  e ∈ Model.running a \/
  (exists k : nat, ops !! k = Some (Push e.2) /\ rets !! k = Some (RetSeq e.1)).
Proof.
  revert a rets. induction ops as [|o ops IH]; intros a rets H He; simpl in H.
  - injection H as <- <-. by left.
  - destruct (Model.step o a) as [[r a1]|] eqn:Es; [|done].
    destruct (Model.run ops a1) as [[rs a2]|] eqn:Er; [|done].
    injection H as <- <-.
    destruct (IH _ _ Er He) as [H1|(k & Hk1 & Hk2)].
    + destruct (model_step_running _ _ _ _ _ Es H1) as [H2|(p & -> & -> & <-)]; [by left|].
      right. by exists 0%nat.
    + right. by exists (S k).
Qed.

(** ** The numbers returned by [push] *)

Lemma run_pushed_ids ops q rets q' d :
  run ops q = Ok (rets, q') ->
  m_sequence_offset q = wrap64 d ->
  0 <= size q + d ->
  size q + d + count_push ops <= 2 ^ 64 ->
  pushed_ids rets = seqZ (size q + d) (count_push ops).
Proof.
  revert q rets d. induction ops as [|o ops IH]; intros q rets d H Hd H0 Hb.
  - simpl in H. by injection H as <- _.
  - apply run_cons_inv in H as (r & q1 & rs & H1 & H2 & ->).
    apply step_inv in H1.
    destruct (step_offset _ _ _ _ d H1 Hd) as (Ho & Hs & _).
    pose proof (count_push_nonneg ops) as Hc.
    unfold count_push in Hb |- *; simpl in Hb |- *.
    fold (push1 o) in Hb |- *. fold count_push in Hb |- *.
    specialize (IH _ _ _ H2 Ho).
    replace (size q1 + (d + (size q + push1 o - size q1)))
      with (size q + d + push1 o) in IH by lia.
    destruct H1 as [off l timer|off p0 rest s Hw Hn|off l s i0 p0 Hw Hne Hl Hn|off p0 rest];
      unfold push1 in *; simpl in *;
      try (rewrite IH by lia; f_equal; lia).
    rewrite seqZ_cons by lia. unfold size in *; simpl in *.
    rewrite Hd, Z.add_comm, wrap64_add_l, wrap64_small by lia.
    rewrite IH by lia. f_equal; [lia|]. f_equal; lia.
Qed.

Lemma count_ops_app f ops1 ops2 :
  count_ops f (ops1 ++ ops2) = count_ops f ops1 + count_ops f ops2.
Proof. induction ops1 as [|o ops1 IH]; simpl; [done|]. rewrite IH. lia. Qed.

Lemma represents_nonempty q a :
  represents q a -> (empty q = false <-> Model.running a <> []).
Proof.
  intros (_ & _ & _ & Hr & Hf). rewrite Hr.
  destruct q as [off [|p rest]]; unfold live_entries, empty; simpl; [done|].
  assert (p <> nullptr) as Hp by apply Hf. apply is_null_false in Hp. by rewrite Hp.
Qed.

(** The hypothesis on pushed pointers in the statements below is needed:
    [push] stores whatever pointer it is given. *)
Remark push_stores_null :
  front (push nullptr TimerQueue_ctor).2 = Some nullptr.
Proof. reflexivity. Qed.

(** * The claims *)

(** C1. In every sequence of push, cancel and pop calls on a fresh queue in
    which no assertion fails and every pushed pointer points to a timer,
    the front entry of a non-empty queue is not null; hence [pop] on a
    non-empty queue returns, and what it returns is not null. *)
Theorem front_is_never_null ops rets q :
  pushes_nonnull ops = true ->
  run ops TimerQueue_ctor = Ok (rets, q) ->
  (forall p, front q = Some p -> p <> nullptr) /\
  (empty q = false ->
   exists timer q', pop q = Ok (timer, q') /\ timer <> nullptr).
Proof.
  intros Hnn Hrun.
  assert (front_live q) as Hf by (eapply run_front_live; eauto; done).
  split.
  - intros p Hp. unfold front_live in Hf. by rewrite Hp in Hf.
  - destruct q as [off [|p rest]]; [done|]. intros _.
    rewrite pop_cons. eexists _, _. split; [done|]. apply Hf.
Qed.

Lemma front_is_never_null_witness :
  pushes_nonnull example_ops = true /\
  run example_ops TimerQueue_ctor = Ok (example_rets, example_queue) /\
  (forall p, front example_queue = Some p -> p <> nullptr) /\
  (empty example_queue = false ->
   exists timer q', pop example_queue = Ok (timer, q') /\ timer <> nullptr).
Proof.
  split; [reflexivity|]. split; [reflexivity|].
  apply (front_is_never_null example_ops example_rets example_queue); reflexivity.
Defined.

(** C2, as the specification words it: after the second pop the offset
    would be 2.  It is not. *)
Lemma mid_cancel_offset_is_not_two : ~ mid_cancel_outcome 100 101 102 103 104 2.
Proof.
  intros (q & Hrun & Hoff & _). vm_compute in Hrun.
  injection Hrun as <-. discriminate Hoff.
Qed.

(** C2, amended.  Push five timers (numbers 0 to 4), cancel number 2, pop
    twice: the pops return the timers numbered 0 and 1, the second pop also
    removes the cancelled entry, so the offset is 3 afterwards, and the
    front is the timer numbered 3, which is then the current one. *)
Theorem mid_cancel_scenario t0 t1 t2 t3 t4 :
  t0 <> nullptr -> t1 <> nullptr -> t2 <> nullptr -> t3 <> nullptr -> t4 <> nullptr ->
  mid_cancel_outcome t0 t1 t2 t3 t4 3 /\
  (forall rets q, run (mid_cancel_ops t0 t1 t2 t3 t4) TimerQueue_ctor = Ok (rets, q) ->
                  is_current 3 q = true /\ live_entries q = [(3, t3); (4, t4)]).
Proof.
  intros H0 H1 H2 H3 H4. apply is_null_false in H0, H1, H2, H3, H4.
  assert (run (mid_cancel_ops t0 t1 t2 t3 t4) TimerQueue_ctor =
          Ok ([RetSeq 0; RetSeq 1; RetSeq 2; RetSeq 3; RetSeq 4;
               RetBool false; RetTimer t0; RetTimer t1],
              mkTimerQueue 3 [t3; t4])) as Hrun
    by (unfold mid_cancel_ops; eval_run).
  split.
  - eexists. split; [exact Hrun|done].
  - intros rets q. rewrite Hrun. intros [= <- <-]. split; [done|].
    unfold live_entries; simpl. by rewrite H3, H4.
Qed.

Lemma mid_cancel_scenario_witness :
  mid_cancel_outcome 100 101 102 103 104 3 /\
  (forall rets q,
     run (mid_cancel_ops 100 101 102 103 104) TimerQueue_ctor = Ok (rets, q) ->
     is_current 3 q = true /\ live_entries q = [(3, 103); (4, 104)]).
Proof. apply (mid_cancel_scenario 100 101 102 103 104); unfold nullptr; lia. Defined.

(** C3. After any sequence of calls on a fresh queue in which no assertion
    fails, the next [push] returns [m_sequence_offset + size()], computed
    in [uint64_t]; as long as fewer than [2 ^ 64] timers have been pushed
    the sum does not wrap and is the number of pushes made so far. *)
Theorem next_push_id ops rets q timer :
  run ops TimerQueue_ctor = Ok (rets, q) ->
  (push timer q).1 = wrap64 (m_sequence_offset q + size q) /\
  (count_push ops < 2 ^ 64 ->
   (push timer q).1 = m_sequence_offset q + size q /\
   (push timer q).1 = count_push ops).
Proof.
  intros Hrun.
  assert ((push timer q).1 = wrap64 (m_sequence_offset q + size q)) as Hpush.
  { unfold push, size; simpl. rewrite length_app; simpl. f_equal. lia. }
  split; [done|]. intros Hb. rewrite Hpush.
  destruct (run_offset _ _ _ _ 0 Hrun eq_refl) as [Ho Hs].
  assert (0 <= size q) as H0 by (unfold size; lia).
  change (size TimerQueue_ctor) with 0 in Ho, Hs.
  rewrite wrap64_small in Ho by lia.
  rewrite wrap64_small by lia. lia.
Qed.

Lemma next_push_id_witness :
  run example_ops TimerQueue_ctor = Ok (example_rets, example_queue) /\
  (push 105 example_queue).1 =
    wrap64 (m_sequence_offset example_queue + size example_queue) /\
  (count_push example_ops < 2 ^ 64 ->
   (push 105 example_queue).1 = m_sequence_offset example_queue + size example_queue /\
   (push 105 example_queue).1 = count_push example_ops).
Proof.
  split; [reflexivity|].
  apply (next_push_id example_ops example_rets example_queue 105). reflexivity.
Defined.

(** C8. Push three timers (numbers 0, 1, 2), cancel number 1, then cancel
    number 0: the second cancel returns [true], the offset is 2 and the
    front that remains is the timer numbered 2. *)
Theorem front_cancel_sweep_scenario t0 t1 t2 :
  t0 <> nullptr -> t1 <> nullptr -> t2 <> nullptr ->
  exists q,
    run (front_cancel_ops t0 t1 t2) TimerQueue_ctor =
      Ok ([RetSeq 0; RetSeq 1; RetSeq 2; RetBool false; RetBool true], q) /\
    get_sequence_offset q = 2 /\
    front q = Some t2 /\
    is_current 2 q = true /\
    live_entries q = [(2, t2)].
Proof.
  intros H0 H1 H2. apply is_null_false in H0, H1, H2.
  exists (mkTimerQueue 2 [t2]). split; [unfold front_cancel_ops; eval_run|].
  unfold live_entries; simpl. by rewrite H2.
Qed.

Lemma front_cancel_sweep_scenario_witness :
  exists q,
    run (front_cancel_ops 100 101 102) TimerQueue_ctor =
      Ok ([RetSeq 0; RetSeq 1; RetSeq 2; RetBool false; RetBool true], q) /\
    get_sequence_offset q = 2 /\
    front q = Some 102 /\
    is_current 2 q = true /\
    live_entries q = [(2, 102)].
Proof. apply (front_cancel_sweep_scenario 100 101 102); unfold nullptr; lia. Defined.

(** C10. In a sequence of calls on a fresh queue in which no assertion
    fails and at most [2 ^ 64] timers are pushed, the calls to [push]
    return 0, 1, 2, ... in this order: every push returns more than every
    earlier push, and no number is returned twice. *)
Theorem push_ids_strictly_increase ops rets q :
  run ops TimerQueue_ctor = Ok (rets, q) ->
  count_push ops <= 2 ^ 64 ->
  pushed_ids rets = seqZ 0 (count_push ops) /\
  (forall (i j : nat) a b,
     (i < j)%nat ->
     pushed_ids rets !! i = Some a ->
     pushed_ids rets !! j = Some b ->
     a < b) /\
  NoDup (pushed_ids rets).
Proof.
  intros Hrun Hb.
  assert (pushed_ids rets = seqZ 0 (count_push ops)) as Hids.
  { rewrite (run_pushed_ids _ _ _ _ 0 Hrun eq_refl); [done|done|].
    change (size TimerQueue_ctor) with 0. lia. }
  rewrite Hids. split_and!; [done| |apply NoDup_seqZ].
  intros i j a b Hij [-> _]%lookup_seqZ [-> _]%lookup_seqZ. lia.
Qed.

Lemma push_ids_strictly_increase_witness :
  run example_ops TimerQueue_ctor = Ok (example_rets, example_queue) /\
  count_push example_ops <= 2 ^ 64 /\
  pushed_ids example_rets = seqZ 0 (count_push example_ops) /\
  (forall (i j : nat) a b,
     (i < j)%nat ->
     pushed_ids example_rets !! i = Some a ->
     pushed_ids example_rets !! j = Some b ->
     a < b) /\
  NoDup (pushed_ids example_rets).
Proof.
  split; [reflexivity|]. split; [vm_compute; discriminate|].
  apply (push_ids_strictly_increase example_ops example_rets example_queue);
    [reflexivity | vm_compute; discriminate].
Defined.

(** C5, as the specification words it: the offset would be the number of
    timers popped.  Cancelling the only timer of a queue advances the
    offset although nothing was popped. *)
Lemma offset_is_not_pop_count : ~ offset_is_pop_count [Push 100; Cancel 0].
Proof.
  intros H. specialize (H _ _ eq_refl). vm_compute in H. discriminate H.
Qed.

(** C5, amended.  While fewer than [2 ^ 64] timers have been pushed (all of
    them real timers) and no assertion has failed, the offset is the number
    of entries that have left the deque: the pushes minus the entries still
    queued, which is the pops plus the cancels minus the cancelled entries
    still queued (as [cancelled_in_queue] reports them while the queue has
    fewer than [2 ^ 31] entries).  It never decreases: after any prefix of
    the calls it is at most what it is after all of them. *)
Theorem offset_counts_removed_entries ops1 ops2 rets1 q1 rets q :
  pushes_nonnull (ops1 ++ ops2) = true ->
  count_push (ops1 ++ ops2) < 2 ^ 64 ->
  run ops1 TimerQueue_ctor = Ok (rets1, q1) ->
  run (ops1 ++ ops2) TimerQueue_ctor = Ok (rets, q) ->
  m_sequence_offset q = count_push (ops1 ++ ops2) - size q /\
  (size q < 2 ^ 31 ->
   m_sequence_offset q =
     count_pop (ops1 ++ ops2) + count_cancel (ops1 ++ ops2) - cancelled_in_queue q) /\
  m_sequence_offset q1 <= m_sequence_offset q.
Proof.
  intros Hnn Hb Hrun1 Hrun.
  assert (0 <= size q /\ 0 <= size q1) as [H0 H1] by (unfold size; lia).
  destruct (run_offset _ _ _ _ 0 Hrun eq_refl) as [Ho Hs].
  change (size TimerQueue_ctor) with 0 in Ho, Hs.
  rewrite wrap64_small in Ho by lia.
  pose proof (run_live_count _ _ _ _ Hrun Hnn I) as Hl.
  change (size TimerQueue_ctor - count_null (m_running_timers TimerQueue_ctor))
    with 0 in Hl.
  split_and!; [lia|intros Hq; rewrite (cancelled_in_queue_exact q Hq); lia|].
  apply run_app_inv in Hrun as (rs1 & q1' & rs2 & Hr1 & Hr2 & ->).
  rewrite Hrun1 in Hr1. injection Hr1 as <- <-.
  destruct (run_offset _ _ _ _ 0 Hrun1 eq_refl) as [Ho1 Hs1].
  change (size TimerQueue_ctor) with 0 in Ho1, Hs1.
  destruct (run_offset _ _ _ _ (m_sequence_offset q1) Hr2) as [_ Hs2].
  { rewrite Ho1. unfold wrap64. by rewrite Zmod_mod. }
  unfold count_push in *. rewrite count_ops_app in *.
  pose proof (count_push_nonneg ops2) as Hc2. unfold count_push in Hc2.
  rewrite wrap64_small in Ho1 by lia. lia.
Qed.

Lemma offset_counts_removed_entries_witness :
  pushes_nonnull (example_ops_before ++ example_ops_after) = true /\
  count_push (example_ops_before ++ example_ops_after) < 2 ^ 64 /\
  run example_ops_before TimerQueue_ctor = Ok (example_rets_before, example_queue_before) /\
  run (example_ops_before ++ example_ops_after) TimerQueue_ctor
    = Ok (example_rets, example_queue) /\
  m_sequence_offset example_queue
    = count_push (example_ops_before ++ example_ops_after) - size example_queue /\
  (size example_queue < 2 ^ 31 ->
   m_sequence_offset example_queue
     = count_pop (example_ops_before ++ example_ops_after)
       + count_cancel (example_ops_before ++ example_ops_after)
       - cancelled_in_queue example_queue) /\
  m_sequence_offset example_queue_before <= m_sequence_offset example_queue.
Proof.
  do 4 (split; [reflexivity|]).
  apply (offset_counts_removed_entries example_ops_before example_ops_after
           example_rets_before example_queue_before example_rets example_queue);
    reflexivity.
Defined.

(** C4. Let [sequence] be a [uint64_t] whose entry, at index
    [sequence - m_sequence_offset], is in the queue and is not null (it was
    pushed and has neither been popped nor cancelled).  Then [cancel]
    succeeds and returns [true] exactly if [sequence == m_sequence_offset]
    held before the call, that is, if the index was 0.  If the index was
    not 0 the entry is replaced by null and nothing else changes; if it was
    0 the entry is removed together with all null entries that follow it,
    the offset advancing by the number of entries removed. *)
Theorem cancel_reports_current sequence q p :
  0 <= m_sequence_offset q < 2 ^ 64 ->
  0 <= sequence < 2 ^ 64 ->
  m_running_timers q !! Z.to_nat (wrap64 (sequence - m_sequence_offset q)) = Some p ->
  p <> nullptr ->
  exists q',
    cancel sequence q = Ok (is_current sequence q, q') /\
    (is_current sequence q = true <-> wrap64 (sequence - m_sequence_offset q) = 0) /\
    (is_current sequence q = false ->
     q' = mkTimerQueue (m_sequence_offset q)
            (<[Z.to_nat (wrap64 (sequence - m_sequence_offset q)) := nullptr]>
               (m_running_timers q))) /\
    (is_current sequence q = true ->
     q' = mkTimerQueue
            (wrap64 (m_sequence_offset q + 1
                     + Z.of_nat (leading_nulls (tail (m_running_timers q)))))
            (drop (1 + leading_nulls (tail (m_running_timers q))) (m_running_timers q)) /\
     front_live q').
Proof.
  intros Ho Hs Hl Hp. destruct q as [off l]; simpl in *.
  pose proof (wrap64_range (sequence - off)) as Hr.
  set (i := wrap64 (sequence - off)) in *.
  pose proof (lookup_lt_Some _ _ _ Hl) as Hlt.
  assert (is_current sequence (mkTimerQueue off l) = (i =? 0)) as Hcur.
  { unfold is_current; simpl. destruct (i =? 0) eqn:E.
    - apply Z.eqb_eq in E. apply Z.eqb_eq.
      pose proof (wrap64_sub_eq sequence off 0) as H. fold i in H. lia.
    - apply Z.eqb_neq. intros ->. apply Z.eqb_neq in E. apply E.
      unfold i. rewrite Z.sub_diag. reflexivity. }
  rewrite Hcur, cancel_unfold. cbv zeta. simpl. fold i. rewrite Hl. simpl.
  apply is_null_false in Hp. rewrite Hp. simpl.
  assert ((i <? size (mkTimerQueue off l)) = true) as ->
    by (apply Z.ltb_lt; unfold size; simpl; lia).
  simpl. destruct (i =? 0) eqn:E.
  - eexists. split; [reflexivity|]. apply Z.eqb_eq in E.
    split_and!; [done|done|]. intros _.
    destruct l as [|p0 rest]; [simpl in Hlt; lia|]. simpl. split; [done|].
    unfold front_live, front; simpl.
    destruct (head (drop _ rest)) eqn:Eh; [|done]. by eapply head_drop_leading_nulls.
  - eexists. split; [reflexivity|]. apply Z.eqb_neq in E.
    split_and!; [split; [done|intros; lia] | done | done].
Qed.

Lemma cancel_reports_current_witness :
  exists q',
    cancel 2 example_queue = Ok (is_current 2 example_queue, q') /\
    (is_current 2 example_queue = true <->
     wrap64 (2 - m_sequence_offset example_queue) = 0) /\
    (is_current 2 example_queue = false ->
     q' = mkTimerQueue (m_sequence_offset example_queue)
            (<[Z.to_nat (wrap64 (2 - m_sequence_offset example_queue)) := nullptr]>
               (m_running_timers example_queue))) /\
    (is_current 2 example_queue = true ->
     q' = mkTimerQueue
            (wrap64 (m_sequence_offset example_queue + 1
                     + Z.of_nat (leading_nulls (tail (m_running_timers example_queue)))))
            (drop (1 + leading_nulls (tail (m_running_timers example_queue)))
               (m_running_timers example_queue)) /\
     front_live q').
Proof.
  apply (cancel_reports_current 2 example_queue 102);
    [vm_compute; split; [discriminate | reflexivity]
    |lia
    |reflexivity
    |unfold nullptr; lia].
Defined.




(** C9. [pop] on an empty queue fails its assertion; [cancel] fails an
    assertion if the index [sequence - m_sequence_offset] is not below
    [size()] or if the entry there is already null.  In a sequence of calls
    that keeps to the documented preconditions (the timer pushed is not
    null; the number cancelled was returned by an earlier push and its
    timer has neither been popped nor cancelled; the queue is not empty
    when popped) and pushes fewer than [2 ^ 64] timers, no assertion fails,
    and the queue is non-empty exactly if a running timer is left. *)
Theorem assertions_guard_preconditions q sequence ops rets a :
  (empty q = true -> pop q = AssertionFailed) /\
  (size q <= wrap64 (sequence - m_sequence_offset q) ->
   cancel sequence q = AssertionFailed) /\
  (m_running_timers q !! Z.to_nat (wrap64 (sequence - m_sequence_offset q)) = Some nullptr ->
   cancel sequence q = AssertionFailed) /\
  (Model.run ops Model.init = Some (rets, a) ->
   count_push ops < 2 ^ 64 ->
   exists q', run ops TimerQueue_ctor = Ok (rets, q') /\
              (empty q' = false <-> Model.running a <> [])).
Proof.
  split_and!.
  - destruct q as [off [|p rest]]; [done|]. discriminate.
  - intros Hge. rewrite cancel_unfold. cbv zeta.
    assert ((wrap64 (sequence - m_sequence_offset q) <? size q) = false) as ->
      by (apply Z.ltb_ge; lia).
    done.
  - intros Hl. rewrite cancel_unfold. cbv zeta. rewrite Hl. simpl.
    by rewrite andb_false_r.
  - intros Hm Hb.
    destruct (refine_run ops _ _ _ _ represents_ctor Hm) as (q' & Hrun & Hr); [simpl; lia|].
    exists q'. split; [done|]. by apply represents_nonempty.
Qed.

Lemma assertions_guard_preconditions_witness :
  pop TimerQueue_ctor = AssertionFailed /\
  cancel 7 example_queue = AssertionFailed /\
  cancel 1 example_queue_before = AssertionFailed /\
  exists q', run example_ops TimerQueue_ctor = Ok (example_rets, q') /\
             (empty q' = false <-> Model.running example_model <> []).
Proof.
  split_and!.
  - destruct (assertions_guard_preconditions TimerQueue_ctor 0 [] [] Model.init)
      as (H & _). apply H. reflexivity.
  - destruct (assertions_guard_preconditions example_queue 7 [] [] Model.init)
      as (_ & H & _). apply H. vm_compute. discriminate.
  - destruct (assertions_guard_preconditions example_queue_before 1 [] [] Model.init)
      as (_ & _ & H & _). apply H. reflexivity.
  - destruct (assertions_guard_preconditions TimerQueue_ctor 0
                example_ops example_rets example_model) as (_ & _ & _ & H).
    apply H; reflexivity.
Defined.

(** C7. In a sequence of calls that keeps to the documented preconditions
    and pushes fewer than [2 ^ 64] timers, every non-null entry at index
    [i] was pushed by a call that returned [i + m_sequence_offset], and the
    running timers of the user's view are exactly these entries under these
    numbers.  A further call that neither cancels nor pops such an entry
    leaves it in the queue under the same number. *)
Theorem ids_are_stable ops rets a :
  Model.run ops Model.init = Some (rets, a) ->
  count_push ops < 2 ^ 64 ->
  exists q,
    run ops TimerQueue_ctor = Ok (rets, q) /\
    (forall (i : nat) p,
       m_running_timers q !! i = Some p -> p <> nullptr ->
       (m_sequence_offset q + Z.of_nat i, p) ∈ Model.running a /\
       exists k : nat,
         ops !! k = Some (Push p) /\
         rets !! k = Some (RetSeq (m_sequence_offset q + Z.of_nat i))) /\
    (forall s p,
       (s, p) ∈ Model.running a ->
       exists i : nat,
         s = m_sequence_offset q + Z.of_nat i /\
         m_running_timers q !! i = Some p /\ p <> nullptr) /\
    (forall o r q' (i : nat) p,
       step o q = Ok (r, q') ->
       m_running_timers q !! i = Some p -> p <> nullptr ->
       (forall s, o = Cancel s ->
                  0 <= s < 2 ^ 64 /\ s <> m_sequence_offset q + Z.of_nat i) ->
       (o = Pop -> i <> 0%nat) ->
       exists i' : nat,
         m_sequence_offset q' + Z.of_nat i' = m_sequence_offset q + Z.of_nat i /\
         m_running_timers q' !! i' = Some p).
Proof.
  intros Hm Hb.
  destruct (refine_run ops _ _ _ _ represents_ctor Hm) as (q & Hrun & Hr); [simpl; lia|].
  exists q. split; [done|].
  destruct Hr as (H0 & Hn & Hlt & Hr & Hf).
  split_and!.
  - intros i p Hi Hp.
    assert ((m_sequence_offset q + Z.of_nat i, p) ∈ Model.running a) as Hin.
    { rewrite Hr. apply elem_of_live_from. by exists i. }
    split; [done|].
    destruct (model_run_running _ _ _ _ _ Hm Hin) as [Hnil|Hk]; [|done].
    by apply elem_of_nil in Hnil.
  - intros s p Hin. rewrite Hr in Hin.
    apply elem_of_live_from in Hin as (i & -> & Hi & Hp). by exists i.
  - intros o r q' i p Hs Hi Hp Hc Hpop. apply step_inv in Hs.
    eapply step_keeps_entry; eauto. lia.
Qed.

Lemma ids_are_stable_witness :
  exists q,
    run example_ops TimerQueue_ctor = Ok (example_rets, q) /\
    (forall (i : nat) p,
       m_running_timers q !! i = Some p -> p <> nullptr ->
       (m_sequence_offset q + Z.of_nat i, p) ∈ Model.running example_model /\
       exists k : nat,
         example_ops !! k = Some (Push p) /\
         example_rets !! k = Some (RetSeq (m_sequence_offset q + Z.of_nat i))) /\
    (forall s p,
       (s, p) ∈ Model.running example_model ->
       exists i : nat,
         s = m_sequence_offset q + Z.of_nat i /\
         m_running_timers q !! i = Some p /\ p <> nullptr) /\
    (forall o r q' (i : nat) p,
       step o q = Ok (r, q') ->
       m_running_timers q !! i = Some p -> p <> nullptr ->
       (forall s, o = Cancel s ->
                  0 <= s < 2 ^ 64 /\ s <> m_sequence_offset q + Z.of_nat i) ->
       (o = Pop -> i <> 0%nat) ->
       exists i' : nat,
         m_sequence_offset q' + Z.of_nat i' = m_sequence_offset q + Z.of_nat i /\
         m_running_timers q' !! i' = Some p).
Proof. apply (ids_are_stable example_ops example_rets example_model); reflexivity. Defined.

(** * Further properties of the queue *)

(** ** Assertions and documented preconditions coincide *)

Lemma cancels_in_range_cons o ops :
  cancels_in_range (o :: ops) = true ->
  (forall s, o = Cancel s -> 0 <= s < 2 ^ 64) /\ cancels_in_range ops = true.
Proof.
  unfold cancels_in_range; simpl. intros [H1 H2]%andb_prop. split; [|done].
  intros s ->. apply andb_prop in H1 as [Ha Hb].
  apply Z.leb_le in Ha. apply Z.ltb_lt in Hb. lia.
Qed.

Lemma step_deterministic o q r1 q1 r2 q2 :
  step_rel o q r1 q1 -> step_rel o q r2 q2 -> r1 = r2 /\ q1 = q2.
Proof.
  intros H1%step_complete H2%step_complete. rewrite H1 in H2. by injection H2.
Qed.

(** A call that gets past the assertions kept to its documented
    precondition. *)
Lemma refine_step_back o q a r q' :
  represents q a ->
  step_rel o q r q' ->
  (forall timer, o = Push timer -> timer <> nullptr) ->
  (forall s, o = Cancel s -> 0 <= s < 2 ^ 64) ->
  exists a', Model.step o a = Some (r, a').
Proof.
  intros (H0 & Hn & Hb & Hr & Hf) Hs Hp Hc.
  destruct a as [next running]. simpl in *. subst running.
  destruct Hs as [off l timer|off p rest s Hw Hnn|off l s i p Hw Hne Hl Hnn|off p rest];
    unfold live_entries, size, front_live, front in *; simpl in *.
  - specialize (Hp timer eq_refl). apply is_null_false in Hp. rewrite Hp.
    rewrite wrap64_small by lia. replace (Z.of_nat (length l) + off) with next by lia.
    by eexists.
  - destruct (Hc s eq_refl) as [Hs1 Hs2].
    apply (wrap64_sub_eq s off 0) in Hw; [|lia..]. rewrite Z.add_0_r in Hw. subst s.
    pose proof Hnn as E. apply is_null_false in E.
    unfold Model.ids; simpl. rewrite E. simpl.
    rewrite bool_decide_eq_true_2 by apply list_elem_of_here.
    rewrite bool_decide_eq_true_2 by done. by eexists.
  - destruct (Hc s eq_refl) as [Hs1 Hs2].
    pose proof (lookup_lt_Some _ _ _ Hl) as Hlt.
    apply (wrap64_sub_eq s off (Z.of_nat i)) in Hw; [|lia..]. subst s.
    unfold Model.ids; simpl.
    rewrite bool_decide_eq_true_2.
    2:{ apply list_elem_of_fmap. exists (off + Z.of_nat i, p). split; [done|].
        apply elem_of_live_from. by exists i. }
    destruct l as [|p0 rest]; [done|]. simpl in Hf.
    apply is_null_false in Hf. simpl. rewrite Hf. simpl.
    rewrite bool_decide_eq_false_2 by (intros [= ?]; lia). by eexists.
  - apply is_null_false in Hf. rewrite Hf. by eexists.
Qed.

Lemma refine_run_back ops q a rets q' :
  represents q a ->
  run ops q = Ok (rets, q') ->
  pushes_nonnull ops = true ->
  cancels_in_range ops = true ->
  Model.next_sequence a + count_push ops < 2 ^ 64 ->
  exists a', Model.run ops a = Some (rets, a') /\ represents q' a'.
Proof.
  revert q a rets. induction ops as [|o ops IH]; intros q a rets Hr Hrun Hnn Hcr Hb.
  - simpl in Hrun. injection Hrun as <- <-. by exists a.
  - apply run_cons_inv in Hrun as (r & q1 & rs & H1 & H2 & ->).
    apply pushes_nonnull_cons in Hnn as [Hp Hnn].
    apply cancels_in_range_cons in Hcr as [Hc Hcr].
    apply step_inv in H1.
    destruct (refine_step_back _ _ _ _ _ Hr H1 Hp Hc) as (a1 & Ha1).
    pose proof (model_step_next _ _ _ _ Ha1) as Hnext.
    pose proof (count_push_nonneg ops) as Hcnt.
    unfold count_push in Hb; simpl in Hb. fold (push1 o) in Hb. fold count_push in Hb.
    destruct (refine_step _ _ _ _ _ Hr Ha1) as (q1' & Hs1 & Hr1); [lia|].
    destruct (step_deterministic _ _ _ _ _ _ H1 Hs1) as [_ <-].
    destruct (IH _ _ _ Hr1 H2 Hnn Hcr) as (a2 & Ha2 & Hr2); [lia|].
    exists a2. split; [|done]. simpl. by rewrite Ha1, Ha2.
Qed.

(** X1. Among call sequences on a fresh queue that push real timers, pass
    [uint64_t] numbers to [cancel] and push fewer than [2 ^ 64] timers, the
    assertions fail exactly when a documented precondition is violated: the
    code returns the results [rets] without a failed assertion if and only
    if the calls, read by their documentation, have these results. *)
Theorem assertions_match_preconditions ops rets :
  pushes_nonnull ops = true ->
  cancels_in_range ops = true ->
  count_push ops < 2 ^ 64 ->
  (exists q, run ops TimerQueue_ctor = Ok (rets, q)) <->
  (exists a, Model.run ops Model.init = Some (rets, a)).
Proof.
  intros Hnn Hcr Hb. split.
  - intros (q & Hrun).
    destruct (refine_run_back _ _ _ _ _ represents_ctor Hrun Hnn Hcr) as (a & Ha & _);
      [simpl; lia|]. by exists a.
  - intros (a & Ha).
    destruct (refine_run _ _ _ _ _ represents_ctor Ha) as (q & Hrun & _); [simpl; lia|].
    by exists q.
Qed.

Lemma assertions_match_preconditions_witness :
  (exists q, run example_ops TimerQueue_ctor = Ok (example_rets, q)) <->
  (exists a, Model.run example_ops Model.init = Some (example_rets, a)).
Proof. apply (assertions_match_preconditions example_ops example_rets); reflexivity. Defined.

(** ** First in, first out *)

Lemma model_wf_init : model_wf Model.init.
Proof. split; [constructor|]. intros s Hs. by apply elem_of_nil in Hs. Qed.

Lemma elem_of_ids_remove_id s s' l :
  s' ∈ (Model.remove_id s l).*1 -> s' ∈ l.*1.
Proof.
  intros ([s0 p] & -> & He%elem_of_remove_id)%list_elem_of_fmap.
  by apply (list_elem_of_fmap_2 fst) in He.
Qed.

Lemma NoDup_ids_remove_id s l : NoDup l.*1 -> NoDup (Model.remove_id s l).*1.
Proof.
  induction l as [|e l IH]; simpl; [done|].
  intros [Hnin Hnd]%NoDup_cons. destruct (e.1 =? s); [by apply IH|].
  simpl. apply NoDup_cons. split; [|by apply IH].
  intros Hin. apply Hnin. by eapply elem_of_ids_remove_id.
Qed.

Lemma model_step_wf o a r a' :
  model_wf a -> Model.step o a = Some (r, a') -> model_wf a'.
Proof.
  intros [Hnd Hlt]. unfold model_wf, Model.ids in *.
  destruct o as [timer|s|]; simpl.
  - destruct (is_null timer); [done|]. intros [= <- <-]; simpl.
    rewrite fmap_app; simpl. split.
    + apply NoDup_app. split_and!; [done| |apply NoDup_singleton].
      intros x Hx Hx'%list_elem_of_singleton. subst x. specialize (Hlt _ Hx). lia.
    + intros x [Hx|Hx%list_elem_of_singleton]%elem_of_app; [specialize (Hlt _ Hx)|]; lia.
  - case_bool_decide; [|done]. intros [= <- <-]; simpl. split.
    + by apply NoDup_ids_remove_id.
    + intros x Hx%elem_of_ids_remove_id. by apply Hlt.
  - destruct (Model.running a) as [|[s t] rest] eqn:E; [done|]. intros [= <- <-]; simpl.
    simpl in Hnd. apply NoDup_cons in Hnd as [_ Hnd]. split; [done|].
    intros x Hx. apply Hlt. simpl. by right.
Qed.

(** A later [cancel] names a running timer or a number not yet handed out. *)
Lemma model_cancel_args ops a rets a' s :
  Model.run ops a = Some (rets, a') ->
  s ∈ cancel_args ops ->
  s ∈ Model.ids a \/ Model.next_sequence a <= s.
Proof.
  revert a rets. induction ops as [|o ops IH]; intros a rets H Hs; simpl in *.
  - by apply elem_of_nil in Hs.
  - destruct (Model.step o a) as [[r a1]|] eqn:Es; [|done].
    destruct (Model.run ops a1) as [[rs a2]|] eqn:Er; [|done].
    injection H as <- <-.
    assert (s ∈ cancel_args ops ->
            s ∈ Model.ids a \/ Model.next_sequence a <= s) as Hrest.
    { intros Hin. destruct (IH _ _ Er Hin) as [Hid|Hge].
      - destruct o as [timer|s'|]; simpl in Es; unfold Model.ids in *.
        + destruct (is_null timer); [done|]. injection Es as <- <-. simpl in *.
          rewrite fmap_app in Hid.
          apply elem_of_app in Hid as [Hid|Hid%list_elem_of_singleton]; [by left|].
          right. simpl in Hid. lia.
        + case_bool_decide; [|done]. injection Es as <- <-. simpl in *.
          left. by eapply elem_of_ids_remove_id.
        + destruct (Model.running a) as [|[s0 t] rest]; [done|]. injection Es as <- <-.
          left. simpl. by right.
      - right. pose proof (model_step_next _ _ _ _ Es) as Hn.
        unfold push1 in Hn. destruct (is_push o); lia. }
    destruct o as [timer|s'|]; simpl in Hs; [by apply Hrest| |by apply Hrest].
    apply elem_of_cons in Hs as [->|Hs]; [|by apply Hrest].
    simpl in Es. case_bool_decide; [by left|done].
Qed.

Lemma model_pushed_entries_ge ops a rets a' e :
  Model.run ops a = Some (rets, a') ->
  e ∈ pushed_entries ops rets ->
  Model.next_sequence a <= e.1.
Proof.
  revert a rets. induction ops as [|o ops IH]; intros a rets H He; simpl in *.
  - injection H as <- <-. by apply elem_of_nil in He.
  - destruct (Model.step o a) as [[r a1]|] eqn:Es; [|done].
    destruct (Model.run ops a1) as [[rs a2]|] eqn:Er; [|done].
    injection H as <- <-.
    pose proof (model_step_next _ _ _ _ Es) as Hn.
    assert (e ∈ pushed_entries ops rs -> Model.next_sequence a <= e.1) as Hrest.
    { intros Hin. specialize (IH _ _ Er Hin). unfold push1 in Hn.
      destruct (is_push o); lia. }
    destruct o as [timer|s'|]; simpl in Es.
    + destruct (is_null timer); [done|]. injection Es as <- <-. simpl in He.
      apply elem_of_cons in He as [->|He]; [simpl; lia|by apply Hrest].
    + case_bool_decide; [|done]. injection Es as <- <-. by apply Hrest.
    + destruct (Model.running a) as [|[s0 t] rest]; [done|]. injection Es as <- <-.
      by apply Hrest.
Qed.

Lemma filter_not_cancelled_remove_id s C (l : list (Z * Timer_ptr)) :
  filter (fun e => e.1 ∉ s :: C) l = filter (fun e => e.1 ∉ C) (Model.remove_id s l).
Proof.
  induction l as [|e l IH]; simpl; [done|].
  destruct (e.1 =? s) eqn:E.
  - apply Z.eqb_eq in E. rewrite filter_cons_False; [done|].
    intros Hn. apply Hn. rewrite E. by left.
  - apply Z.eqb_neq in E. destruct (decide (e.1 ∈ C)) as [Hin|Hnin].
    + rewrite !filter_cons_False; [done|by intros Hn; apply Hn|].
      intros Hn. apply Hn. by right.
    + rewrite !filter_cons_True; [by rewrite IH|done|].
      by intros [?|?]%elem_of_cons.
Qed.

Lemma model_fifo ops a rets a' :
  model_wf a ->
  Model.run ops a = Some (rets, a') ->
  popped_timers rets ++ (Model.running a').*2 =
    (filter (fun e => e.1 ∉ cancel_args ops)
            (Model.running a ++ pushed_entries ops rets)).*2.
Proof.
  revert a rets. induction ops as [|o ops IH]; intros a rets Hwf H; simpl in H.
  - injection H as <- <-. simpl. rewrite app_nil_r.
    f_equal. induction (Model.running a) as [|e l IHl]; [done|].
    rewrite filter_cons_True; [by rewrite <- IHl|]. apply not_elem_of_nil.
  - destruct (Model.step o a) as [[r a1]|] eqn:Es; [|done].
    destruct (Model.run ops a1) as [[rs a2]|] eqn:Er; [|done].
    injection H as <- <-.
    pose proof (model_step_wf _ _ _ _ Hwf Es) as Hwf1.
    specialize (IH _ _ Hwf1 Er).
    destruct o as [timer|s|]; simpl in Es.
    + destruct (is_null timer); [done|]. injection Es as <- <-. simpl in *.
      by rewrite <- app_assoc in IH.
    + case_bool_decide as Hin; [|done]. injection Es as <- <-. simpl in *.
      rewrite IH, !filter_app, !filter_not_cancelled_remove_id.
      do 3 f_equal. symmetry. apply remove_id_absent.
      intros e He. pose proof (model_pushed_entries_ge _ _ _ _ _ Er He) as Hge.
      simpl in Hge. destruct Hwf as [_ Hlt]. specialize (Hlt _ Hin). lia.
    + destruct (Model.running a) as [|[s0 t] rest] eqn:E; [done|].
      injection Es as <- <-. simpl in *.
      rewrite filter_cons_True; [simpl; by rewrite IH|]. simpl.
      intros Hc. destruct Hwf as [Hnd Hlt]. unfold Model.ids in *. rewrite E in *.
      simpl in *. apply NoDup_cons in Hnd as [Hnin _].
      destruct (model_cancel_args _ _ _ _ _ Er Hc) as [Hid|Hge]; [done|].
      simpl in Hge. assert (s0 < Model.next_sequence a) by (apply Hlt; by left). lia.
Qed.

(** X2. The queue is first in, first out over the timers that are not
    cancelled: after a sequence of calls on a fresh queue in which no
    assertion fails (real timers pushed, fewer than [2 ^ 64] of them), the
    timers returned by the pops, followed by the timers still running, are
    the pushed timers whose number was never passed to [cancel], in the
    order in which they were pushed. *)
Theorem pops_are_first_in_first_out ops rets q :
  pushes_nonnull ops = true ->
  cancels_in_range ops = true ->
  count_push ops < 2 ^ 64 ->
  run ops TimerQueue_ctor = Ok (rets, q) ->
  popped_timers rets ++ (live_entries q).*2 = (never_cancelled ops rets).*2.
Proof.
  intros Hnn Hcr Hb Hrun.
  destruct (refine_run_back _ _ _ _ _ represents_ctor Hrun Hnn Hcr) as (a & Ha & Hr);
    [simpl; lia|].
  destruct Hr as (_ & _ & _ & Hr & _). rewrite <- Hr.
  apply (model_fifo _ _ _ _ model_wf_init Ha).
Qed.

Lemma pops_are_first_in_first_out_witness :
  popped_timers example_rets ++ (live_entries example_queue).*2
    = (never_cancelled example_ops example_rets).*2.
Proof.
  apply (pops_are_first_in_first_out example_ops example_rets example_queue); reflexivity.
Defined.

(** ** The next expiration point *)

(** X3. After any sequence of calls on a fresh queue in which no assertion
    fails and only real timers are pushed, [next_expiration_point] never
    reads through a null pointer: on an empty queue it returns
    [Timer::none], otherwise the expiration point of the timer that the
    next [pop] returns. *)
Theorem next_expiration_point_is_safe {time_point : Type} (none : time_point)
    (get_expiration_point : Timer_ptr -> time_point) ops rets q :
  pushes_nonnull ops = true ->
  run ops TimerQueue_ctor = Ok (rets, q) ->
  (empty q = true -> next_expiration_point none get_expiration_point q = Value none) /\
  (empty q = false ->
   exists timer q',
     pop q = Ok (timer, q') /\
     timer <> nullptr /\
     next_expiration_point none get_expiration_point q
       = Value (get_expiration_point timer)).
Proof.
  intros Hnn Hrun.
  assert (front_live q) as Hf by (eapply run_front_live; eauto; done).
  unfold next_expiration_point. split; [by intros ->|]. intros He. rewrite He.
  destruct q as [off [|p rest]]; [done|].
  assert (p <> nullptr) as Hp by apply Hf.
  exists p. rewrite pop_cons. eexists. split_and!; [done|done|].
  simpl. apply is_null_false in Hp. by rewrite Hp.
Qed.

Lemma next_expiration_point_is_safe_witness :
  (empty example_queue = true ->
   next_expiration_point (-1) (fun p => 10 * p) example_queue = Value (-1)) /\
  (empty example_queue = false ->
   exists timer q',
     pop example_queue = Ok (timer, q') /\
     timer <> nullptr /\
     next_expiration_point (-1) (fun p => 10 * p) example_queue = Value (10 * timer)).
Proof.
  apply (next_expiration_point_is_safe (-1) (fun p => 10 * p)
           example_ops example_rets example_queue); reflexivity.
Defined.

(** ** Cancelling the current timer *)

(** X4. Cancelling the current timer leaves the queue exactly as popping
    it does: if the front entry is a timer, [cancel] of the number
    [m_sequence_offset] returns [true] and ends in the state in which
    [pop] ends (the loop over [pop_front] and the loop over the iterator
    remove the same entries and advance the offset alike). *)
Theorem cancel_current_is_pop q timer :
  front q = Some timer ->
  timer <> nullptr ->
  exists q',
    pop q = Ok (timer, q') /\
    cancel (m_sequence_offset q) q = Ok (true, q').
Proof.
  intros Hfront Hp. destruct q as [off [|p rest]]; [done|].
  injection Hfront as ->. rewrite pop_cons. eexists. split; [done|].
  rewrite cancel_unfold. cbv zeta. simpl. rewrite Z.sub_diag.
  change (wrap64 0) with 0. simpl.
  apply is_null_false in Hp. rewrite Hp. unfold size; simpl. done.
Qed.

Lemma cancel_current_is_pop_witness :
  exists q',
    pop example_queue = Ok (102, q') /\
    cancel (m_sequence_offset example_queue) example_queue = Ok (true, q').
Proof.
  apply (cancel_current_is_pop example_queue 102); [reflexivity | unfold nullptr; lia].
Defined.

(** X5. A timer that has just been pushed is the current one exactly if
    the queue was empty before the push, whatever the offset, as long as
    the queue holds fewer than [2 ^ 64] entries. *)
Theorem pushed_timer_is_current_iff_was_empty timer q :
  0 <= m_sequence_offset q < 2 ^ 64 ->
  size q < 2 ^ 64 ->
  is_current (push timer q).1 (push timer q).2 = empty q.
Proof.
  intros Ho Hs. destruct q as [off l]. unfold is_current, push, size, empty in *.
  simpl in *. rewrite length_app; simpl.
  replace (Z.of_nat (length l + 1) - 1 + off) with (off + Z.of_nat (length l)) by lia.
  destruct l as [|p rest]; simpl.
  - rewrite Z.add_0_r, wrap64_small by lia. apply Z.eqb_refl.
  - apply Z.eqb_neq. intros Heq. simpl in Hs.
    pose proof (wrap64_sub_index off (S (length rest))) as Hi.
    rewrite <- wrap64_sub_l, Heq, Z.sub_diag in Hi.
    change (wrap64 0) with 0 in Hi. lia.
Qed.

Lemma pushed_timer_is_current_iff_was_empty_witness :
  is_current (push 103 wrapping_queue).1 (push 103 wrapping_queue).2
    = empty wrapping_queue.
Proof.
  apply (pushed_timer_is_current_iff_was_empty 103 wrapping_queue);
    [vm_compute; split; [discriminate | reflexivity] | reflexivity].
Defined.

(** ** Numbers across the wrap-around of the counter *)

(** X6. Numbering survives the wrap-around of the 64-bit counter: in a
    queue of at most [2 ^ 64] entries, whatever the offset, the entry at
    index [i] is cancelled through the number [i + m_sequence_offset]
    reduced modulo [2 ^ 64] ([cancel] overwrites that entry if [i] is not 0
    and returns whether [i] is 0), and two entries never share a number. *)
Theorem numbers_survive_wrap_around q (i j : nat) p :
  0 <= m_sequence_offset q < 2 ^ 64 ->
  size q <= 2 ^ 64 ->
  m_running_timers q !! i = Some p ->
  p <> nullptr ->
  (j < length (m_running_timers q))%nat ->
  (exists q',
     cancel (wrap64 (m_sequence_offset q + Z.of_nat i)) q
       = Ok (bool_decide (i = 0%nat), q') /\
     (i <> 0%nat ->
      q' = mkTimerQueue (m_sequence_offset q) (<[i := nullptr]> (m_running_timers q)))) /\
  (wrap64 (m_sequence_offset q + Z.of_nat i) = wrap64 (m_sequence_offset q + Z.of_nat j) ->
   i = j).
Proof.
  intros Ho Hs Hl Hp Hj. destruct q as [off l]. unfold size in *; simpl in *.
  pose proof (lookup_lt_Some _ _ _ Hl) as Hi.
  assert (forall k : nat, (k < length l)%nat ->
            wrap64 (wrap64 (off + Z.of_nat k) - off) = Z.of_nat k) as Hidx.
  { intros k Hk. rewrite wrap64_sub_l. apply wrap64_sub_index. lia. }
  split.
  - rewrite cancel_unfold. cbv zeta. simpl. rewrite (Hidx i Hi), Nat2Z.id, Hl. simpl.
    apply is_null_false in Hp. rewrite Hp. unfold size; simpl.
    assert ((Z.of_nat i <? Z.of_nat (length l)) = true) as -> by (apply Z.ltb_lt; lia).
    simpl. destruct i as [|i]; simpl.
    + eexists. split; [reflexivity|done].
    + eexists. split; [reflexivity|done].
  - intros Heq. pose proof (Hidx i Hi) as H1. pose proof (Hidx j Hj) as H2.
    rewrite Heq, H2 in H1. lia.
Qed.

Lemma numbers_survive_wrap_around_witness :
  (exists q',
     cancel (wrap64 (m_sequence_offset wrapping_queue + Z.of_nat 1)) wrapping_queue
       = Ok (bool_decide (1%nat = 0%nat), q') /\
     (1%nat <> 0%nat ->
      q' = mkTimerQueue (m_sequence_offset wrapping_queue)
             (<[1%nat := nullptr]> (m_running_timers wrapping_queue)))) /\
  (wrap64 (m_sequence_offset wrapping_queue + Z.of_nat 1)
     = wrap64 (m_sequence_offset wrapping_queue + Z.of_nat 2) ->
   1%nat = 2%nat).
Proof.
  apply (numbers_survive_wrap_around wrapping_queue 1 2 101);
    [vm_compute; split; [discriminate | reflexivity]
    |vm_compute; discriminate
    |reflexivity
    |unfold nullptr; lia
    |simpl; lia].
Defined.

(** ** Numbers that are no longer valid *)

Lemma step_no_wrap o q r q' :
  step_rel o q r q' ->
  0 <= m_sequence_offset q ->
  m_sequence_offset q + size q + push1 o < 2 ^ 64 ->
  m_sequence_offset q <= m_sequence_offset q' /\
  m_sequence_offset q' + size q' = m_sequence_offset q + size q + push1 o.
Proof.
  intros H H0 Hb.
  destruct H as [off l timer|off p rest s Hw Hn|off l s i p Hw Hne Hl Hn|off p rest];
    unfold size, push1 in *; simpl in *.
  - rewrite length_app; simpl. lia.
  - pose proof (leading_nulls_le rest). rewrite wrap64_small, length_drop by lia. lia.
  - rewrite length_insert. lia.
  - pose proof (leading_nulls_le rest). rewrite wrap64_small, length_drop by lia. lia.
Qed.

Lemma stale_front_removed s off rest :
  0 <= off ->
  off + Z.of_nat (S (length rest)) < 2 ^ 64 ->
  s <= off \/ (exists i : nat, s = off + Z.of_nat (S i) /\ rest !! i = Some nullptr) ->
  stale s (mkTimerQueue (wrap64 (off + 1 + Z.of_nat (leading_nulls rest)))
                        (drop (leading_nulls rest) rest)).
Proof.
  intros H0 Hb Hs. pose proof (leading_nulls_le rest) as Hk.
  unfold stale; simpl. rewrite wrap64_small by lia.
  destruct Hs as [Hs|(i & -> & Hi)]; [left; lia|].
  destruct (decide (i < leading_nulls rest)%nat) as [Hlt|Hge]; [left; lia|].
  right. exists (i - leading_nulls rest)%nat. split; [lia|].
  rewrite lookup_drop, <- Hi. f_equal. lia.
Qed.

(** A stale number stays stale, and no call that gets past the assertions
    cancels it. *)
Lemma stale_step s o q r q' :
  stale s q ->
  step_rel o q r q' ->
  0 <= m_sequence_offset q ->
  m_sequence_offset q + size q + push1 o < 2 ^ 64 ->
  (forall s', o = Cancel s' -> 0 <= s' < 2 ^ 64) ->
  o <> Cancel s /\ stale s q'.
Proof.
  intros Hst H H0 Hb Hc.
  destruct H as [off l timer|off p rest s' Hw Hn|off l s' i p Hw Hne Hl Hn|off p rest];
    unfold stale, size, push1 in *; simpl in *.
  - split; [done|]. destruct Hst as [?|(i & -> & Hi)]; [by left|].
    right. exists i. split; [done|]. by apply lookup_app_l_Some.
  - destruct (Hc s' eq_refl) as [Hs1 Hs2].
    apply (wrap64_sub_eq s' off 0) in Hw; [|lia..]. rewrite Z.add_0_r in Hw. subst s'.
    split.
    + intros [= ->]. destruct Hst as [?|(i & Hi & Hnull)]; [lia|].
      assert (i = 0%nat) as -> by lia. simpl in Hnull. by injection Hnull.
    + apply (stale_front_removed s off rest); [done|lia|].
      destruct Hst as [?|(i & -> & Hi)]; [left; lia|].
      destruct i as [|i]; [left; lia|]. right. by exists i.
  - destruct (Hc s' eq_refl) as [Hs1 Hs2].
    pose proof (lookup_lt_Some _ _ _ Hl) as Hlt.
    apply (wrap64_sub_eq s' off (Z.of_nat i)) in Hw; [|lia..]. subst s'.
    split.
    + intros [= Heq]. destruct Hst as [?|(i' & Hi & Hnull)]; [lia|].
      assert (i' = i) as -> by lia. rewrite Hl in Hnull. by injection Hnull.
    + destruct Hst as [?|(i' & -> & Hi)]; [by left|].
      right. exists i'. split; [done|].
      destruct (decide (i = i')) as [->|Hne'].
      * by apply list_lookup_insert_eq.
      * by rewrite list_lookup_insert_ne.
  - split; [done|]. apply (stale_front_removed s off rest); [done|lia|].
    destruct Hst as [?|(i & -> & Hi)]; [left; lia|].
    destruct i as [|i]; [left; lia|]. right. by exists i.
Qed.

Lemma stale_run s ops q rets q' :
  stale s q ->
  0 <= m_sequence_offset q ->
  m_sequence_offset q + size q + count_push ops < 2 ^ 64 ->
  cancels_in_range ops = true ->
  run ops q = Ok (rets, q') ->
  s ∉ cancel_args ops.
Proof.
  revert q rets. induction ops as [|o ops IH]; intros q rets Hst H0 Hb Hcr Hrun.
  - apply not_elem_of_nil.
  - apply run_cons_inv in Hrun as (r & q1 & rs & H1 & H2 & ->).
    apply cancels_in_range_cons in Hcr as [Hc Hcr].
    apply step_inv in H1.
    pose proof (count_push_nonneg ops) as Hcnt.
    unfold count_push in Hb; simpl in Hb. fold (push1 o) in Hb. fold count_push in Hb.
    assert (0 <= push1 o) as Hp1 by (unfold push1; destruct (is_push o); lia).
    destruct (stale_step _ _ _ _ _ Hst H1 H0) as [Hne Hst1]; [lia|done|].
    destruct (step_no_wrap _ _ _ _ H1 H0) as [Hle Heq]; [lia|].
    assert (s ∉ cancel_args ops) as Hrest by (eapply (IH q1); eauto; lia).
    destruct o as [timer|s'|]; simpl; [done| |done].
    apply not_elem_of_cons. split; [|done]. intros ->. by apply Hne.
Qed.

(** X7. A number is good for one cancellation only, and not after its
    timer was popped.  Once [cancel] of a number has succeeded, or [pop]
    has returned the timer that was current under that number, every
    continuation that passes the number to [cancel] again stops at a failed
    assertion ([uint64_t] numbers; offset, size and later pushes together
    staying below [2 ^ 64]). *)
Theorem stale_numbers_are_rejected q s o r q1 ops :
  0 <= m_sequence_offset q ->
  m_sequence_offset q + size q + count_push (o :: ops) < 2 ^ 64 ->
  cancels_in_range (o :: ops) = true ->
  o = Cancel s \/ (o = Pop /\ s = m_sequence_offset q) ->
  step o q = Ok (r, q1) ->
  s ∈ cancel_args ops ->
  run ops q1 = AssertionFailed.
Proof.
  intros H0 Hb Hcr Ho Hstep Hin.
  apply cancels_in_range_cons in Hcr as [Hc Hcr].
  apply step_inv in Hstep.
  pose proof (count_push_nonneg ops) as Hcnt.
  unfold count_push in Hb; simpl in Hb. fold (push1 o) in Hb. fold count_push in Hb.
  assert (0 <= push1 o) as Hp1 by (unfold push1; destruct (is_push o); lia).
  assert (0 <= size q) as Hsz by (unfold size; lia).
  destruct (step_no_wrap _ _ _ _ Hstep H0) as [Hle Heq]; [lia|].
  assert (stale s q1) as Hst.
  { destruct Ho as [->|[-> ->]].
    - destruct (Hc s eq_refl) as [Hs1 Hs2].
      inversion Hstep as [|off p rest s' Hw Hn|off l s' i p Hw Hne Hl Hn|]; subst;
        unfold stale, size, push1 in *; simpl in *.
      + apply (wrap64_sub_eq s off 0) in Hw; [|lia..].
        pose proof (leading_nulls_le rest). rewrite wrap64_small by lia. left. lia.
      + pose proof (lookup_lt_Some _ _ _ Hl) as Hlt.
        apply (wrap64_sub_eq s off (Z.of_nat i)) in Hw; [|lia..].
        right. exists i. split; [done|]. by apply list_lookup_insert_eq.
    - left. unfold push1 in Heq; simpl in Heq.
      destruct (step_offset _ _ _ _ (m_sequence_offset q) Hstep) as (_ & _ & Hlt).
      { symmetry. apply wrap64_small. lia. }
      specialize (Hlt eq_refl). lia. }
  destruct (run ops q1) as [[rets q2]|] eqn:Hrun; [|done].
  exfalso. eapply (stale_run s ops q1); eauto; lia.
Qed.

Lemma stale_numbers_are_rejected_witness :
  run [Pop; Push 105; Cancel 3] (mkTimerQueue 2 [102; nullptr; 104]) = AssertionFailed.
Proof.
  apply (stale_numbers_are_rejected example_queue 3 (Cancel 3) (RetBool false)
           (mkTimerQueue 2 [102; nullptr; 104]) [Pop; Push 105; Cancel 3]);
    [vm_compute; discriminate
    |reflexivity
    |reflexivity
    |by left
    |reflexivity
    |simpl; by left].
Defined.

(** ** Cancelled entries in the queue *)

Lemma step_null_count o q r q' :
  step_rel o q r q' ->
  (forall timer, o = Push timer -> timer <> nullptr) ->
  count_null (m_running_timers q')
    <= count_null (m_running_timers q) + (if is_cancel o then 1 else 0).
Proof.
  intros H Hp.
  destruct H as [off l timer|off p rest s Hw Hn|off l s i p Hw Hne Hl Hn|off p rest];
    simpl.
  - rewrite count_null_app; simpl.
    specialize (Hp timer eq_refl). apply is_null_false in Hp. rewrite Hp. lia.
  - rewrite count_null_drop_leading. destruct (is_null p); lia.
  - rewrite (count_null_insert _ _ _ Hl Hn). lia.
  - rewrite count_null_drop_leading. destruct (is_null p); lia.
Qed.

Lemma run_null_count ops q rets q' :
  run ops q = Ok (rets, q') ->
  pushes_nonnull ops = true ->
  count_null (m_running_timers q') <= count_null (m_running_timers q) + count_cancel ops.
Proof.
  revert q rets. induction ops as [|o ops IH]; intros q rets H Hnn.
  - simpl in H. injection H as _ <-. unfold count_cancel; simpl. lia.
  - apply run_cons_inv in H as (r & q1 & rs & H1 & H2 & ->).
    apply pushes_nonnull_cons in Hnn as [Hp Hnn].
    apply step_inv in H1.
    pose proof (step_null_count _ _ _ _ H1 Hp) as Hs.
    specialize (IH _ _ H2 Hnn).
    unfold count_cancel in *; simpl. lia.
Qed.

(** X8. After any sequence of calls on a fresh queue in which no assertion
    fails and only real timers are pushed, and which leaves fewer than
    [2 ^ 31] entries in the queue (so that the [int] of
    [cancelled_in_queue] does not overflow), [cancelled_in_queue] is
    between 0 and the number of calls to [cancel], and on a non-empty queue
    it is less than [size()]: the queue never consists of cancelled entries
    only. *)
Theorem cancelled_in_queue_bounds ops rets q :
  pushes_nonnull ops = true ->
  run ops TimerQueue_ctor = Ok (rets, q) ->
  size q < 2 ^ 31 ->
  0 <= cancelled_in_queue q <= count_cancel ops /\
  (empty q = false -> cancelled_in_queue q < size q).
Proof.
  intros Hnn Hrun Hsz. rewrite (cancelled_in_queue_exact q Hsz).
  pose proof (run_null_count _ _ _ _ Hrun Hnn) as Hle.
  change (count_null (m_running_timers TimerQueue_ctor)) with 0 in Hle.
  pose proof (count_null_range (m_running_timers q)) as Hb.
  split; [lia|].
  assert (front_live q) as Hf by (eapply run_front_live; eauto; done).
  destruct q as [off [|p rest]]; [done|]. intros _.
  assert (p <> nullptr) as Hp by apply Hf. apply is_null_false in Hp.
  unfold size; simpl. rewrite Hp.
  pose proof (count_null_range rest). lia.
Qed.

Lemma cancelled_in_queue_bounds_witness :
  size example_queue_before < 2 ^ 31 /\
  0 <= cancelled_in_queue example_queue_before <= count_cancel example_ops_before /\
  (empty example_queue_before = false ->
   cancelled_in_queue example_queue_before < size example_queue_before).
Proof.
  split; [reflexivity|].
  apply (cancelled_in_queue_bounds example_ops_before example_rets_before
           example_queue_before); reflexivity.
Defined.
